(** * inferrer: finite automata (automaton.py, nfa.py)

    A shallow embedding of the deterministic automaton [Automaton]
    (inferrer/automaton/automaton.py), of the prefix-tree acceptor builder
    [build_pta] and of the non-deterministic automaton [NFA]
    (inferrer/automaton/nfa.py), with the properties of their parsers,
    of reachability minimisation, of the epsilon closure and of the subset
    construction.

    Python objects are mutable: every method is a computation over the
    object it is called on, which may return, raise, or not terminate.
    Python [set]s are [gset]s (iterated through [elements]), the
    [defaultdict] of transitions is a [gmap] whose [__getitem__] inserts the
    default for a missing key, and the inner [OrderedDict] of an NFA is an
    association list in insertion order. *)

From stdpp Require Import base option list strings gmap sets fin_sets.

Set Default Proof Using "Type".

(** ** States

    [State] (inferrer/automaton/state.py) is an object carrying a label;
    equality and hashing are those of the label. *)

Record State : Type := mkState { name : string }.

#[global] Instance State_eq_dec : EqDecision State.
Proof. solve_decision. Defined.

#[global] Instance State_countable : Countable State :=
  inj_countable' name mkState (λ q, match q with mkState _ => eq_refl end).

(** The empty string: the label of the default start state, and the
    symbol of an epsilon transition. *)
Definition epsilon : string := EmptyString.

(** The letters of a Python string, each a string of length one, as
    [for letter in s] and [s[index]] produce them. *)
Fixpoint letters (s : string) : list string :=
  match s with
  | EmptyString => []
  | String c s' => String c EmptyString :: letters s'
  end.

(** ** Computations that may raise *)

Inductive exn : Type :=
  | ValueError
  | KeyError
  | StopIteration
  | IndexError
  | TypeError.

(** The outcome of running a method: a value, a raised exception, or
    [OutOfFuel] when a [while] loop was cut after the given number of
    iterations. *)
Inductive outcome (A : Type) : Type :=
  | Return (a : A)
  | Raise (e : exn)
  | OutOfFuel.

Arguments Return {A} a.
Arguments Raise {A} e.
Arguments OutOfFuel {A}.

Section Py.
Context {St : Type}.

(** A method of an object of type [St]: from the object before the call
    to the outcome and the object after it. *)
Definition Py (A : Type) : Type := St → outcome A * St.

Definition ret {A} (a : A) : Py A := λ σ, (Return a, σ).

Definition raise {A} (e : exn) : Py A := λ σ, (Raise e, σ).

Definition bind {A B} (m : Py A) (k : A → Py B) : Py B := λ σ,
  match m σ with
  | (Return a, σ') => k a σ'
  | (Raise e, σ') => (Raise e, σ')
  | (OutOfFuel, σ') => (OutOfFuel, σ')
  end.

Definition get : Py St := λ σ, (Return σ, σ).

Definition modify (f : St → St) : Py unit := λ σ, (Return tt, f σ).

(** A [while] loop that did not finish within its fuel. *)
Definition out_of_fuel {A} : Py A := λ σ, (OutOfFuel, σ).

(** [for x in l: body x], the local variables of the loop threaded
    through the iterations. *)
Fixpoint for_each {A B} (l : list A) (body : A → B → Py B) (b : B)
    : Py B :=
  match l with
  | [] => ret b
  | x :: l' => bind (body x b) (for_each l' body)
  end.

(** A method call on another object [o], local to the caller: the
    value and the object after the call; an exception propagates. *)
Definition call {St' A} (m : St' → outcome A * St') (o : St')
    : Py (A * St') := λ σ,
  match m o with
  | (Return a, o') => (Return (a, o'), σ)
  | (Raise e, _) => (Raise e, σ)
  | (OutOfFuel, _) => (OutOfFuel, σ)
  end.
End Py.

Arguments Py St A : clear implicits.

Notation "'let*' x ':=' m 'in' k" := (bind m (λ x, k))
  (at level 10, x pattern, m at level 100, k at level 200).
Notation "m ';;' k" := (bind m (λ _, k))
  (at level 100, k at level 200, right associativity).

(** ** The deterministic automaton of automaton.py *)

Module Automaton.

Record t : Type := mk {
  _start_state : State;
  _alphabet : gset string;
  states : gset State;
  accept_states : gset State;
  reject_states : gset State;
  _transitions : gmap State (gmap string State)
}.

Definition set_states (f : gset State → gset State) (d : t) : t :=
  mk (_start_state d) (_alphabet d) (f (states d)) (accept_states d)
     (reject_states d) (_transitions d).

Definition set_accept_states (f : gset State → gset State) (d : t) : t :=
  mk (_start_state d) (_alphabet d) (states d) (f (accept_states d))
     (reject_states d) (_transitions d).

Definition set_reject_states (f : gset State → gset State) (d : t) : t :=
  mk (_start_state d) (_alphabet d) (states d) (accept_states d)
     (f (reject_states d)) (_transitions d).

Definition set_transitions
    (f : gmap State (gmap string State) → gmap State (gmap string State))
    (d : t) : t :=
  mk (_start_state d) (_alphabet d) (states d) (accept_states d)
     (reject_states d) (f (_transitions d)).

(** [Automaton(alphabet, start_state)] *)
Definition init (alphabet : gset string) (start_state : State) : t :=
  mk start_state alphabet {[start_state]} ∅ ∅ ∅.

(** [self._transitions[q]] on the [defaultdict]: a missing key is
    inserted with an empty dictionary. *)
Definition transitions_getitem (q : State) : Py t (gmap string State) :=
  λ d,
    match _transitions d !! q with
    | Some m => (Return m, d)
    | None => (Return ∅, set_transitions (insert q ∅) d)
    end.

(** [self._transitions[q1][a] = q2] *)
Definition transitions_setitem (q1 : State) (a : string) (q2 : State)
    : Py t unit :=
  let* m := transitions_getitem q1 in
  modify (set_transitions (insert q1 (<[a:=q2]> m))).

Definition add_transition (q1 q2 : State) (a : string) : Py t unit :=
  let* d := get in
  if bool_decide (a ∈ _alphabet d) then
    modify (set_states (λ Q, Q ∪ {[q1; q2]}));;
    transitions_setitem q1 a q2
  else raise ValueError.

(** [self._transitions[q1][a]] *)
Definition transition (q1 : State) (a : string) : Py t State :=
  let* m := transitions_getitem q1 in
  match m !! a with
  | Some q2 => ret q2
  | None => raise KeyError
  end.

(** The three conjuncts are evaluated left to right and short-circuit:
    the table is indexed only once the key is known to be there. The
    third conjunct indexes [self._transitions[q1][a]], the expression that
    is the body of [transition]. *)
Definition transition_exists (q1 : State) (a : string) : Py t bool :=
  let* d := get in
  if bool_decide (q1 ∈ dom (_transitions d)) then
    let* m := transitions_getitem q1 in
    if bool_decide (a ∈ dom m) then
      let* q2 := transition q1 a in
      let* d' := get in
      ret (bool_decide (q2 ∈ states d'))
    else ret false
  else ret false.

Fixpoint parse_from (q : State) (l : list string) : Py t (State * bool) :=
  match l with
  | [] => let* d := get in ret (q, bool_decide (q ∈ accept_states d))
  | letter :: l' =>
      let* defined := transition_exists q letter in
      if negb defined then ret (q, false)
      else let* q' := transition q letter in parse_from q' l'
  end.

Definition parse_string (s : string) : Py t (State * bool) :=
  let* d := get in parse_from (_start_state d) (letters s).

(** One iteration of [for a in self._alphabet] in [minimize]; the
    loop's variables are the automaton under construction, the stack
    (top first) and the visited set. *)
Definition minimize_letter (state : State) (a : string)
    (vars : t * list State * gset State)
    : Py t (t * list State * gset State) :=
  let '(minimized_dfa, stack, visited_states) := vars in
  let* d := get in
  if bool_decide (state ∈ dom (_transitions d)) then
    let* m := transitions_getitem state in
    if bool_decide (a ∈ dom m) then
      let* to_state := transition state a in
      let* r := call (add_transition state to_state a) minimized_dfa in
      if bool_decide (to_state ∈ visited_states)
      then ret (r.2, stack, visited_states)
      else ret (r.2, to_state :: stack, visited_states ∪ {[to_state]})
    else ret vars
  else ret vars.

Fixpoint minimize_loop (fuel : nat) (minimized_dfa : t)
    (stack : list State) (visited_states : gset State) : Py t t :=
  match stack with
  | [] => ret minimized_dfa
  | state :: stack' =>
      match fuel with
      | O => out_of_fuel
      | S fuel' =>
          let* d := get in
          let* vars :=
            for_each (elements (_alphabet d)) (minimize_letter state)
              (set_states (λ Q, Q ∪ {[state]}) minimized_dfa,
               stack', visited_states) in
          let '(m1, stack1, visited1) := vars in
          let* d' := get in
          let m2 :=
            if bool_decide (state ∈ accept_states d')
            then set_accept_states (λ F, F ∪ {[state]}) m1
            else if bool_decide (state ∈ reject_states d')
            then set_reject_states (λ R, R ∪ {[state]}) m1
            else m1 in
          minimize_loop fuel' m2 stack1 visited1
      end
  end.

(** [minimize]: the new automaton is [Automaton(self._alphabet)], whose
    start state is the default [State('')], and the search starts from
    [State('')]. *)
Definition minimize (fuel : nat) : Py t t :=
  let* d := get in
  minimize_loop fuel (init (_alphabet d) (mkState epsilon))
    [mkState epsilon] {[mkState epsilon]}.

(** *** The specification of the parser *)

(** The transition table read as the partial function [delta]: at most
    one target for a state and a symbol. *)
Definition delta (d : t) (q : State) (a : string) : option State :=
  _transitions d !! q ≫= (.!! a).

(** Every target of a transition is a state of the automaton. *)
Definition targets_registered (d : t) : Prop :=
  ∀ q a q', delta d q a = Some q' → q' ∈ states d.

(** Parsing as the specification words it: feed the letters through
    [delta]; stop with the current state and [false] at the first
    undefined transition; after the last letter answer the state reached
    and whether it is an accept state. *)
Fixpoint parse_spec (d : t) (q : State) (l : list string) : State * bool :=
  match l with
  | [] => (q, bool_decide (q ∈ accept_states d))
  | a :: l' =>
      match delta d q a with
      | Some q' => parse_spec d q' l'
      | None => (q, false)
      end
  end.

(** What [parse_from] computes, as a function of the automaton. *)
Fixpoint parse_run (d : t) (q : State) (l : list string) : State * bool :=
  match l with
  | [] => (q, bool_decide (q ∈ accept_states d))
  | a :: l' =>
      match delta d q a with
      | Some q' =>
          if bool_decide (q' ∈ states d) then parse_run d q' l'
          else (q, false)
      | None => (q, false)
      end
  end.

(** The letters that the parser consumes: each has a transition whose
    target is a state of the automaton. *)
Inductive walk (d : t) : State → list string → State → Prop :=
  | walk_nil q : walk d q [] q
  | walk_cons q a q' l q'' :
      delta d q a = Some q' → q' ∈ states d → walk d q' l q'' →
      walk d q (a :: l) q''.

(** The letter at which the parser stops: [delta(q, a)] is undefined,
    or it is not a state of the automaton. *)
Definition blocked (d : t) (q : State) (a : string) : Prop :=
  delta d q a = None ∨ ∃ r, delta d q a = Some r ∧ r ∉ states d.

(** *** An automaton whose start state is not [State('')] *)

(** An automaton over [{a}] whose start state is [State('q')], which is
    also its only accept state; it has no transition. *)
Definition lone_q : t :=
  set_accept_states (λ _, {[mkState "q"]}) (init {["a"]} (mkState "q")).

(** *** The other methods of the automaton *)

(** The inner loop of [find_transition_to_q], over the items of one row
    of the table: the first letter that leads to [q]. *)
Fixpoint find_letter (q : State) (row : list (string * State))
    : option string :=
  match row with
  | [] => None
  | (letter, to_state) :: row' =>
      if bool_decide (to_state = q) then Some letter
      else find_letter q row'
  end.

(** The outer loop of [find_transition_to_q], over the rows of the
    table; [None] stands for the pair [(None, None)]. *)
Fixpoint find_row (q : State) (items : list (State * list (string * State)))
    : option (State * string) :=
  match items with
  | [] => None
  | (qf, row) :: items' =>
      match find_letter q row with
      | Some letter => Some (qf, letter)
      | None => find_row q items'
      end
  end.

(** The items of the table. Python iterates the two dictionaries in the
    order of insertion, which the maps do not record; the items come in
    the order of the maps, and what is proved of the search holds for
    every order. *)
Definition table_items (d : t) : list (State * list (string * State)) :=
  (λ item, (item.1, map_to_list item.2)) <$> map_to_list (_transitions d).

Definition find_transition_to_q (q : State)
    : Py t (option (State * string)) :=
  let* d := get in ret (find_row q (table_items d)).

(** [items] lists the transitions of the table, in some order. *)
Definition enumerates (d : t) (items : list (State * list (string * State)))
    : Prop :=
  ∀ qf a r, delta d qf a = Some r ↔
            ∃ row, (qf, row) ∈ items ∧ (a, r) ∈ row.

(** [copy]: the copy is built by [Automaton(self._alphabet)], so that
    its start state is the default [State('')]. *)
Definition copy : Py t t :=
  let* d := get in
  ret (mk (mkState epsilon) (_alphabet d) (states d) (accept_states d)
          (reject_states d) (_transitions d)).

(** The invariants of the data model: the start state is a state, and
    every transition goes from a state to a state on a letter of the
    alphabet. *)
Definition well_formed (d : t) : Prop :=
  _start_state d ∈ states d ∧
  ∀ q a r, delta d q a = Some r →
           q ∈ states d ∧ r ∈ states d ∧ a ∈ _alphabet d.

(** The states that the search of [minimize] can reach: from
    [State('')], along transitions on letters of the alphabet. *)
Definition step (d : t) (q r : State) : Prop :=
  ∃ a, a ∈ _alphabet d ∧ delta d q a = Some r.

Definition reachable (d : t) (q : State) : Prop :=
  rtc (step d) (mkState epsilon) q.

(** The automaton after a sequence of calls [add_transition(q1, q2, a)],
    each given as [(q1, q2, a)], whether a call raises or not. *)
Definition after_calls (calls : list (State * State * string)) (d : t) : t :=
  foldl (λ d' c, (add_transition c.1.1 c.1.2 c.2 d').2) d calls.

(** The marks that one iteration of the search copies for [state]. *)
Definition classify (d : t) (state : State) (m : t) : t :=
  if bool_decide (state ∈ accept_states d)
  then set_accept_states (λ F, F ∪ {[state]}) m
  else if bool_decide (state ∈ reject_states d)
  then set_reject_states (λ R, R ∪ {[state]}) m
  else m.

(** *** The invariant of the search of [minimize]

    [popped] are the states taken off the stack, [classified] those
    whose accept and reject marks are copied, and [done q a] says that
    the loop over the letters has handled the letter [a] for the state
    [q]. *)
Record minimize_inv (d m : t) (stack : list State)
    (visited popped classified : gset State)
    (done : State → string → Prop) : Prop := {
  inv_alphabet : _alphabet m = _alphabet d;
  inv_start : _start_state m = mkState epsilon;
  inv_nodup : NoDup stack;
  inv_visited : ∀ x, x ∈ visited ↔ x ∈ stack ∨ x ∈ popped;
  inv_stack : ∀ x, x ∈ stack → x ∉ popped;
  inv_root : mkState epsilon ∈ visited;
  inv_done : ∀ q a, done q a → q ∈ popped ∧ a ∈ _alphabet d;
  inv_closed : ∀ q a r, done q a → delta d q a = Some r → r ∈ visited;
  inv_reachable : ∀ x, x ∈ visited → reachable d x;
  inv_states : ∀ q, q ∈ states m ↔
                 q = mkState epsilon ∨ q ∈ popped ∨
                 ∃ p a, done p a ∧ delta d p a = Some q;
  inv_delta : ∀ q a r, delta m q a = Some r ↔
                done q a ∧ delta d q a = Some r;
  inv_accept : ∀ q, q ∈ accept_states m ↔
                 q ∈ classified ∧ q ∈ accept_states d;
  inv_reject : ∀ q, q ∈ reject_states m ↔
                 q ∈ classified ∧ (q ∉ accept_states d) ∧
                 q ∈ reject_states d
}.

End Automaton.

(** ** The prefix-tree acceptor *)

(** Modelled from the spec: [utils.determine_alphabet] is not among the
    sources; alphabet inference yields the symbols that occur in the
    samples, each a single atomic token. *)
Definition determine_alphabet (samples : gset string) : gset string :=
  list_to_set (elements samples ≫= letters).

(** All the prefixes of a string, the empty one first. *)
Fixpoint prefixes (w : string) : list string :=
  match w with
  | EmptyString => [EmptyString]
  | String c w' => EmptyString :: (String c <$> prefixes w')
  end.

(** Modelled from the spec: [utils.prefix_set] is not among the sources;
    a prefix is any string [u] such that some sample can be written
    [uv]. *)
Definition prefix_set (samples : gset string) (alphabet : gset string)
    : list string :=
  elements samples ≫= prefixes.

(** The body of the loop [for u in states: for a in alphabet]; the local
    variable is [new_states]. *)
Definition pta_extend (states : gset State) (u : State) (a : string)
    (new_states : gset State) : Py Automaton.t (gset State) :=
  let ua := mkState (name u +:+ a) in
  let new_states' :=
    if bool_decide (ua ∈ states) then new_states else new_states ∪ {[ua]} in
  Automaton.add_transition u ua a;;
  ret new_states'.

(** The body of the loop that classifies the states. *)
Definition pta_classify (s_plus s_minus : gset string) (u : State)
    (_ : unit) : Py Automaton.t unit :=
  (if bool_decide (name u ∈ s_plus)
   then modify (Automaton.set_accept_states (λ F, F ∪ {[u]}))
   else ret tt);;
  (if bool_decide (name u ∈ s_minus)
   then modify (Automaton.set_reject_states (λ R, R ∪ {[u]}))
   else ret tt).

(** The statements of [build_pta] after [pta = Automaton(alphabet)], run
    on [pta]. *)
Definition build_pta_body (s_plus s_minus : gset string)
    (alphabet : gset string) : Py Automaton.t unit :=
  let samples := s_plus ∪ s_minus in
  for_each (elements alphabet)
    (λ letter _,
       Automaton.add_transition (mkState epsilon) (mkState letter) letter)
    tt;;
  let states : gset State :=
    list_to_set (mkState <$> prefix_set samples alphabet) in
  let* new_states :=
    for_each (elements states)
      (λ u, for_each (elements alphabet) (pta_extend states u)) ∅ in
  let states' := states ∪ new_states in
  for_each (elements states') (pta_classify s_plus s_minus) tt;;
  modify (Automaton.set_states (λ _, states')).

Definition build_pta (s_plus s_minus : gset string)
    : outcome Automaton.t :=
  let alphabet := determine_alphabet (s_plus ∪ s_minus) in
  let pta := Automaton.init alphabet (mkState epsilon) in
  match build_pta_body s_plus s_minus alphabet pta with
  | (Return _, pta') => Return pta'
  | (Raise e, _) => Raise e
  | (OutOfFuel, _) => OutOfFuel
  end.

(** *** The specification of the prefix tree *)

(** [u] is a prefix of a sample: some sample can be written [uv]. *)
Definition is_prefix_of (samples : gset string) (u : string) : Prop :=
  ∃ w v, w ∈ samples ∧ w = u +:+ v.

(** The automaton that C6 claims of [build_pta]: the states are the
    prefixes of the samples, every state has a transition on every
    letter, to the state of the extended string, and the accept and
    reject states are the positive and negative samples. *)
Definition prefix_tree (s_plus s_minus : gset string) : Prop :=
  ∃ pta,
    build_pta s_plus s_minus = Return pta ∧
    (∀ q, q ∈ Automaton.states pta ↔
          is_prefix_of (s_plus ∪ s_minus) (name q)) ∧
    (∀ u a, u ∈ Automaton.states pta → a ∈ Automaton._alphabet pta →
            Automaton.delta pta u a = Some (mkState (name u +:+ a))) ∧
    (∀ q, q ∈ Automaton.accept_states pta ↔ name q ∈ s_plus) ∧
    (∀ q, q ∈ Automaton.reject_states pta ↔ name q ∈ s_minus).

(** *** Invariants of the loops of [build_pta] *)

(** What the loops of [build_pta] keep of the automaton under
    construction. *)
Definition pta_base (Σ : gset string) (d : Automaton.t) : Prop :=
  Automaton._alphabet d = Σ ∧ Automaton._start_state d = mkState epsilon ∧
  Automaton.accept_states d = ∅ ∧ Automaton.reject_states d = ∅.

(** Every transition leaves the empty prefix or a prefix, on a letter of
    the alphabet, for the state labelled with the extended string. *)
Definition pta_sound (Σ : gset string) (P : gset State) (d : Automaton.t)
    : Prop :=
  ∀ q a q', Automaton.delta d q a = Some q' →
    (q = mkState epsilon ∨ q ∈ P) ∧ a ∈ Σ ∧ q' = mkState (name q +:+ a).

Definition pta_linked (d : Automaton.t) (u : State) (a : string) : Prop :=
  Automaton.delta d u a = Some (mkState (name u +:+ a)).

(** The states that the second loop collects in [new_states] once it has
    visited the prefixes [us]: their extensions by a letter that are not
    prefixes themselves. *)
Definition extension_of (Σ : gset string) (us : list State) (q : State)
    : Prop :=
  ∃ u a, u ∈ us ∧ a ∈ Σ ∧ q = mkState (name u +:+ a).

(** ** Ordered dictionaries

    An [OrderedDict] is an association list with distinct keys, in the
    order of insertion. *)

Section OrderedDict.
Context {K V : Type} `{EqDecision K}.

(** [d[k]], [None] standing for the [KeyError] *)
Fixpoint od_lookup (k : K) (d : list (K * V)) : option V :=
  match d with
  | [] => None
  | (k', v) :: d' => if decide (k = k') then Some v else od_lookup k d'
  end.

(** [d[k] = v]: in place for a key that is there, at the end
    otherwise *)
Fixpoint od_set (k : K) (v : V) (d : list (K * V)) : list (K * V) :=
  match d with
  | [] => [(k, v)]
  | (k', v') :: d' =>
      if decide (k = k') then (k, v) :: d' else (k', v') :: od_set k v d'
  end.
End OrderedDict.

(** [itertools.combinations(l, r)] *)
Fixpoint combinations {A} (l : list A) (r : nat) : list (list A) :=
  match r, l with
  | O, _ => [[]]
  | S _, [] => []
  | S r', x :: l' => (cons x <$> combinations l' r') ++ combinations l' r
  end.

(** [''.join(map(lambda q: q.name, qs))] *)
Definition join_names (qs : list State) : string :=
  foldr (λ q acc, name q +:+ acc) EmptyString qs.

(** [s[index]] on a string *)
Definition str_getitem {St} (s : string) (index : nat) : Py St string :=
  match letters s !! index with
  | Some c => ret c
  | None => raise IndexError
  end.

(** ** The non-deterministic automaton of nfa.py *)

Module NFA.

Record t : Type := mk {
  alphabet : gset string;
  _start_states : gset State;
  _states : gset State;
  _accept_states : gset State;
  _transitions : gmap State (list (string * gset State))
}.

Definition set_start_states (f : gset State → gset State) (n : t) : t :=
  mk (alphabet n) (f (_start_states n)) (_states n) (_accept_states n)
     (_transitions n).

Definition set_states (f : gset State → gset State) (n : t) : t :=
  mk (alphabet n) (_start_states n) (f (_states n)) (_accept_states n)
     (_transitions n).

Definition set_accept_states (f : gset State → gset State) (n : t) : t :=
  mk (alphabet n) (_start_states n) (_states n) (f (_accept_states n))
     (_transitions n).

Definition set_transitions
    (f : gmap State (list (string * gset State)) →
         gmap State (list (string * gset State)))
    (n : t) : t :=
  mk (alphabet n) (_start_states n) (_states n) (_accept_states n)
     (f (_transitions n)).

(** [NFA(alphabet)] *)
Definition init (alphabet : gset string) : t := mk alphabet ∅ ∅ ∅ ∅.

(** [self._transitions[q]] on the [defaultdict] *)
Definition transitions_getitem (q : State)
    : Py t (list (string * gset State)) :=
  λ n,
    match _transitions n !! q with
    | Some m => (Return m, n)
    | None => (Return [], set_transitions (insert q []) n)
    end.

Definition add_transition (q1 q2 : State) (a : string) : Py t unit :=
  let* n := get in
  if bool_decide (a ∉ alphabet n) && bool_decide (a ≠ epsilon)
  then raise ValueError
  else
    let* from_map := transitions_getitem q1 in
    let from_map1 :=
      match od_lookup a from_map with
      | None => od_set a ∅ from_map
      | Some _ => from_map
      end in
    match od_lookup a from_map1 with
    | Some to_states =>
        modify (set_transitions
                  (insert q1 (od_set a (to_states ∪ {[q2]}) from_map1)))
    | None => raise KeyError
    end.

Definition add_state (state : State) : Py t unit :=
  modify (set_states (λ Q, Q ∪ {[state]})).

Definition add_accepting_state (state : State) : Py t unit :=
  modify (set_accept_states (λ F, F ∪ {[state]})).

Definition add_start_state (state : State) : Py t unit :=
  let* n := get in
  (if bool_decide (state ∉ _states n)
   then modify (set_states (λ Q, Q ∪ {[state]}))
   else ret tt);;
  modify (set_start_states (λ S, S ∪ {[state]})).

Definition get_states : Py t (gset State) :=
  let* n := get in ret (_states n).

(** [self._transitions[q1][a]] *)
Definition transition (q1 : State) (a : string) : Py t (gset State) :=
  let* m := transitions_getitem q1 in
  match od_lookup a m with
  | Some to_states => ret to_states
  | None => raise KeyError
  end.

(** The innermost body of the loops of [parse_string]; the local
    variable is the stack, top first. *)
Definition parse_push (s : string) (index : nat) (symbol : string)
    (to_state : State) (stack : list (State * nat))
    : Py t (list (State * nat)) :=
  if bool_decide (symbol = epsilon) then ret ((to_state, index) :: stack)
  else
    let* c := str_getitem s index in
    if bool_decide (symbol = c)
    then ret ((to_state, index + 1) :: stack)
    else ret stack.

(** [while len(stack) > 0]: [Some state] when the loop is left by
    [return state, True], [None] when the stack runs empty. *)
Fixpoint parse_while (fuel : nat) (s : string)
    (stack : list (State * nat)) : Py t (option State) :=
  match stack with
  | [] => ret None
  | (state, index) :: stack' =>
      match fuel with
      | O => out_of_fuel
      | S fuel' =>
          if bool_decide (index = length (letters s)) then
            let* n := get in
            if bool_decide (state ∈ _accept_states n)
            then ret (Some state)
            else parse_while fuel' s stack'
          else
            let* symbols := transitions_getitem state in
            let* stack1 :=
              for_each symbols
                (λ item,
                   for_each (elements item.2)
                     (parse_push s index item.1))
                stack' in
            parse_while fuel' s stack1
      end
  end.

(** [for start_state in self._start_states] *)
Fixpoint parse_starts (fuel : nat) (s : string) (starts : list State)
    : Py t (option State) :=
  match starts with
  | [] => ret None
  | start_state :: starts' =>
      let* found := parse_while fuel s [(start_state, 0)] in
      match found with
      | Some state => ret (Some state)
      | None => parse_starts fuel s starts'
      end
  end.

(** [next(iter(self._start_states))] *)
Definition next_start_state : Py t State :=
  let* n := get in
  match elements (_start_states n) with
  | q :: _ => ret q
  | [] => raise StopIteration
  end.

Definition parse_string (fuel : nat) (s : string) : Py t (State * bool) :=
  let* n := get in
  let* found := parse_starts fuel s (elements (_start_states n)) in
  match found with
  | Some state => ret (state, true)
  | None => let* q := next_start_state in ret (q, false)
  end.

(** One step of the inner loop of [_epsilon_closure]. *)
Definition closure_visit (vars : gset State * list State)
    (to_state : State) : gset State * list State :=
  if bool_decide (to_state ∉ vars.1)
  then (vars.1 ∪ {[to_state]}, to_state :: vars.2)
  else vars.

Fixpoint closure_while (fuel : nat) (closure_set : gset State)
    (stack : list State) : Py t (gset State) :=
  match stack with
  | [] => ret closure_set
  | state :: stack' =>
      match fuel with
      | O => out_of_fuel
      | S fuel' =>
          let* to_states := transition state epsilon in
          let vars :=
            foldl closure_visit (closure_set, stack')
              (elements to_states) in
          closure_while fuel' vars.1 vars.2
      end
  end.

(** [_epsilon_closure(nfa, q)], run on [nfa] *)
Definition _epsilon_closure (fuel : nat) (q : State)
    : Py t (gset State) :=
  closure_while fuel {[q]} [q].

(** [_power_set(q)] *)
Definition _power_set (q : list State) : list (list State) :=
  seq 0 (S (length q)) ≫= combinations q.

(** The statements of [to_dfa] that turn the copy into an automaton
    with the single start state [State('__q0__')]; run on [cpy]. *)
Definition add_fresh_start : Py t unit :=
  let new_q := mkState "__q0__" in
  modify (set_states (λ Q, Q ∪ {[new_q]}));;
  let* cpy := get in
  for_each (elements (_start_states cpy))
    (λ q _, add_transition new_q q epsilon) tt;;
  modify (set_start_states (λ _, {[new_q]})).

(** [transitions[r][a] = set()] on the plain dictionary [transitions]
    of [to_dfa], which is keyed by tuples of states. *)
Definition subset_reset (r : list State) (a : string)
    (transitions : gmap (list State) (gmap string (gset State)))
    : Py t (gmap (list State) (gmap string (gset State))) :=
  match transitions !! r with
  | None => raise KeyError
  | Some row => ret (<[r := <[a := ∅]> row]> transitions)
  end.

(** [transitions[r][a].add(to_state)] *)
Definition subset_add (r : list State) (a : string) (to_state : State)
    (transitions : gmap (list State) (gmap string (gset State)))
    : Py t (gmap (list State) (gmap string (gset State))) :=
  match transitions !! r with
  | None => raise KeyError
  | Some row =>
      match row !! a with
      | None => raise KeyError
      | Some to_states =>
          ret (<[r := <[a := to_states ∪ {[to_state]}]> row]> transitions)
      end
  end.

(** The body of [for state in r] *)
Definition subset_state (fuel : nat) (r : list State) (a : string)
    (state : State)
    (transitions : gmap (list State) (gmap string (gset State)))
    : Py t (gmap (list State) (gmap string (gset State))) :=
  let* tss := transition state a in
  for_each (elements tss)
    (λ ts tr,
       let* closure := _epsilon_closure fuel ts in
       for_each (elements closure) (subset_add r a) tr)
    transitions.

(** The body of [for a in cpy.alphabet] *)
Definition subset_symbol (fuel : nat) (r : list State) (a : string)
    (transitions : gmap (list State) (gmap string (gset State)))
    : Py t (gmap (list State) (gmap string (gset State))) :=
  let* tr := subset_reset r a transitions in
  for_each r (subset_state fuel r a) tr.

(** The body of [for r in q_prime]; the local variables are
    [transitions] and [accept_prime]. *)
Definition subset_row (fuel : nat) (r : list State)
    (vars : gmap (list State) (gmap string (gset State)) *
            gset (list State))
    : Py t (gmap (list State) (gmap string (gset State)) *
            gset (list State)) :=
  let* cpy := get in
  let* tr :=
    for_each (elements (alphabet cpy)) (subset_symbol fuel r) vars.1 in
  let* cpy' := get in
  if existsb (λ s, bool_decide (s ∈ _accept_states cpy')) r
  then ret (tr, vars.2 ∪ {[r]})
  else ret (tr, vars.2).

(** [to_dfa] from [q_prime = self._power_set(self._states)] on; run on
    [cpy]. The class [DFA] of dfa.py is not among the sources: the
    deterministic automaton of automaton.py stands for it. The iterator
    [q_prime] is exhausted by the loop over it, so that the later
    [map(lambda q: q.name, q_prime)] joins nothing; the items of
    [transitions] unpack into a tuple and a dictionary, and indexing by
    the dictionary raises. *)
Definition to_dfa_body (fuel : nat) (q_prime : list (list State))
    : Py t Automaton.t :=
  let* q0 := next_start_state in
  let* q0_prime := _epsilon_closure fuel q0 in
  let* vars := for_each q_prime (subset_row fuel) (∅, ∅) in
  let* cpy := get in
  let dfa :=
    Automaton.mk (mkState (join_names (elements q0_prime))) (alphabet cpy)
      {[mkState (join_names [])]}
      (list_to_set ((λ r, mkState (join_names r)) <$> elements vars.2))
      ∅ ∅ in
  for_each (map_to_list vars.1) (λ _ _, raise TypeError) tt;;
  let* r := call (Automaton.minimize fuel) dfa in
  ret r.1.

(** [to_dfa]: with several start states the construction works on a
    copy, and [self] is left as it was; otherwise [cpy] is [self]. *)
Definition to_dfa (fuel : nat) : Py t Automaton.t := λ self,
  let q_prime := _power_set (elements (_states self)) in
  if bool_decide (1 < size (_start_states self)) then
    (((add_fresh_start;; to_dfa_body fuel q_prime) self).1, self)
  else to_dfa_body fuel q_prime self.

(** *** The language of an NFA, as the specification words it *)

(** [q2] is in [delta(q1, a)]. *)
Definition edge (n : t) (q1 : State) (a : string) (q2 : State) : Prop :=
  ∃ m to_states,
    _transitions n !! q1 = Some m ∧ od_lookup a m = Some to_states ∧
    q2 ∈ to_states.

(** A run of the epsilon-NFA from a state, consuming a list of letters:
    an epsilon transition advances the state and not the input. *)
Inductive run (n : t) : State → list string → State → Prop :=
  | run_done q : run n q [] q
  | run_epsilon q q' l q'' :
      edge n q epsilon q' → run n q' l q'' → run n q l q''
  | run_letter q a q' l q'' :
      edge n q a q' → run n q' l q'' → run n q (a :: l) q''.

Definition accepts (n : t) (s : string) : Prop :=
  ∃ q0 q, q0 ∈ _start_states n ∧ run n q0 (letters s) q ∧
          q ∈ _accept_states n.

(** The states reachable by zero or more epsilon edges. *)
Definition epsilon_reachable (n : t) : State → State → Prop :=
  rtc (λ q q', edge n q epsilon q').

(** *** The registration of states *)

(** The table that [add_transition] leaves behind. *)
Definition added (q1 q2 : State) (a : string) (n : t) : t :=
  let from_map := default [] (_transitions n !! q1) in
  let to_states := default ∅ (od_lookup a from_map) in
  set_transitions (insert q1 (od_set a (to_states ∪ {[q2]}) from_map)) n.

(** Every state that appears in the transition relation is a state of
    the automaton. *)
Definition registered (n : t) : Prop :=
  ∀ q1 a q2, edge n q1 a q2 → q1 ∈ _states n ∧ q2 ∈ _states n.

(** The registration that C5 claims of a call
    [add_transition(q1, q2, a)] on [n]: afterwards the target, with every
    state of the transition relation, is among [get_states()]. *)
Definition registers_target (n : t) (q1 q2 : State) (a : string) : Prop :=
  a ∈ alphabet n ∨ a = epsilon →
  ∀ Q, (get_states (add_transition q1 q2 a n).2).1 = Return Q →
       q2 ∈ Q ∧ registered (add_transition q1 q2 a n).2.

(** *** The work stack of the parser *)

(** An entry of the work stack whose index is within the input. *)
Definition in_range (s : string) (entry : State * nat) : Prop :=
  entry.2 ≤ length (letters s).

(** *** Small automata *)

(** An automaton over [{a}] with the start state [p], the accept state
    [q] and the single transition from [p] to [q], on the empty
    symbol. *)
Definition trailing : t :=
  ((add_start_state (mkState "p");; add_state (mkState "q");;
    add_accepting_state (mkState "q");;
    add_transition (mkState "p") (mkState "q") epsilon)
     (init {["a"]})).2.

(** An automaton over [{a}] whose only state [p], a start and accept
    state, has an epsilon transition to itself. *)
Definition looping : t :=
  ((add_start_state (mkState "p");; add_accepting_state (mkState "p");;
    add_transition (mkState "p") (mkState "p") epsilon)
     (init {["a"]})).2.

(** An automaton over [{a}] with the single state [p] and no
    transition. *)
Definition lone : t := (add_start_state (mkState "p") (init {["a"]})).2.

(** *** The table up to empty rows *)

(** What [self._transitions[q]] answers: the row of [q], empty when
    there is none. *)
Definition row (n : t) (q : State) : list (string * gset State) :=
  default [] (_transitions n !! q).

(** [n'] is [n] up to rows that are empty in the one and missing in
    the other: the traces that indexing the [defaultdict] leaves. *)
Definition same_table (n n' : t) : Prop :=
  alphabet n' = alphabet n ∧ _start_states n' = _start_states n ∧
  _states n' = _states n ∧ _accept_states n' = _accept_states n ∧
  ∀ q, row n' q = row n q.

(** The rows are dictionaries: no key occurs twice. *)
Definition ordered (n : t) : Prop :=
  ∀ q m, _transitions n !! q = Some m → NoDup m.*1.

(** No transition is on the empty symbol. *)
Definition epsilon_free (n : t) : Prop := ∀ q r, ¬ edge n q epsilon r.

(** The entries from which every run over the rest of the input extends
    to a run over the whole input from a start state. *)
Definition continues (n : t) (s : string) (e : State * nat) : Prop :=
  e.2 ≤ length (letters s) ∧
  ∀ qf, run n e.1 (drop e.2 (letters s)) qf →
        ∃ q0, q0 ∈ _start_states n ∧ run n q0 (letters s) qf.

(** An entry of the work stack from which some run over the rest of the
    input ends in an accept state. *)
Definition accepting_from (n : t) (s : string) (e : State * nat) : Prop :=
  ∃ qf, run n e.1 (drop e.2 (letters s)) qf ∧ qf ∈ _accept_states n.

(** *** The invariant of the search of [_epsilon_closure]

    [processed] are the states taken off the stack. *)
Record closure_inv (n : t) (q : State) (closure_set : gset State)
    (stack : list State) (processed : gset State) : Prop := {
  ci_root : q ∈ closure_set;
  ci_nodup : NoDup stack;
  ci_split : ∀ x, x ∈ closure_set ↔ x ∈ stack ∨ x ∈ processed;
  ci_disjoint : ∀ x, x ∈ stack → x ∉ processed;
  ci_reachable : ∀ x, x ∈ closure_set → epsilon_reachable n q x;
  ci_closed : ∀ x y, x ∈ processed → edge n x epsilon y →
                     y ∈ closure_set;
  ci_rows : ∀ x, x ∈ processed → is_Some (od_lookup epsilon (row n x))
}.

(** The states that the transition table names as targets. *)
Definition table_targets (n : t) : gset State :=
  ⋃ ((λ m : list (string * gset State), ⋃ m.*2)
       <$> (map_to_list (_transitions n)).*2).

(** *** Sequences of calls *)

(** A call of one of the methods that build an automaton. *)
Inductive call : Type :=
  | AddTransition (q1 q2 : State) (a : string)
  | AddState (state : State)
  | AddAcceptingState (state : State)
  | AddStartState (state : State).

Definition perform (c : call) : Py t unit :=
  match c with
  | AddTransition q1 q2 a => add_transition q1 q2 a
  | AddState state => add_state state
  | AddAcceptingState state => add_accepting_state state
  | AddStartState state => add_start_state state
  end.

(** The automaton after a sequence of calls, whether a call raises or
    not. *)
Definition after_calls (calls : list call) (n : t) : t :=
  foldl (λ n' c, (perform c n').2) n calls.

(** The invariants that the building methods keep: the start states
    are states, the rows are dictionaries, and every transition is on a
    letter of the alphabet or on the empty symbol. *)
Definition well_formed (n : t) : Prop :=
  _start_states n ⊆ _states n ∧ ordered n ∧
  ∀ q a r, edge n q a r → a ∈ alphabet n ∨ a = epsilon.

End NFA.

(** * Properties *)

(** ** Loops *)

Section PyFacts.
Context {St : Type}.

(** A loop whose body always returns, leaves the object alone and
    keeps an invariant of the local variables does so as a whole. *)
Lemma for_each_returns {A B} (P : B → Prop) (l : list A)
    (body : A → B → Py St B) (σ : St) :
  (∀ x b, P b → ∃ b', body x b σ = (Return b', σ) ∧ P b') →
  ∀ b, P b → ∃ b', for_each l body b σ = (Return b', σ) ∧ P b'.
Proof.
  intros Hbody. induction l as [|x l IH]; intros b Hb; simpl.
  - by exists b.
  - destruct (Hbody x b Hb) as (b1 & Hrun & Hb1).
    unfold bind. rewrite Hrun. by apply IH.
Qed.

(** The same with an invariant of the object and the local variables
    that follows the elements already visited. *)
Lemma for_each_invariant {A B} (I : list A → B → St → Prop)
    (body : A → B → Py St B) (l : list A) :
  (∀ visited x b σ, I visited b σ → x ∈ l →
     ∃ b' σ', body x b σ = (Return b', σ') ∧ I (visited ++ [x]) b' σ') →
  ∀ b σ, I [] b σ →
    ∃ b' σ', for_each l body b σ = (Return b', σ') ∧ I l b' σ'.
Proof.
  intros Hbody.
  assert (∀ rest visited b σ,
            (∀ x, x ∈ rest → x ∈ l) → I visited b σ →
            ∃ b' σ', for_each rest body b σ = (Return b', σ') ∧
                     I (visited ++ rest) b' σ') as Hgen.
  { induction rest as [|x rest IH]; intros visited b σ Hin Hinv; simpl.
    - rewrite app_nil_r. by eexists _, _.
    - destruct (Hbody visited x b σ Hinv) as (b1 & σ1 & Hrun & Hinv1).
      { apply Hin. by left. }
      unfold bind. rewrite Hrun.
      destruct (IH (visited ++ [x]) b1 σ1) as (b' & σ' & Hrest & Hinv');
        [intros y Hy; apply Hin; by right|done|].
      rewrite <- app_assoc in Hinv'. by eexists _, _. }
  intros b σ Hinv. by apply (Hgen l [] b σ).
Qed.

(** A component [f] of the object that every step leaves alone is left
    alone by a sequence and by a loop. *)
Lemma bind_preserves {A B C} (f : St → C) (m : Py St A) (k : A → Py St B) σ :
  f (m σ).2 = f σ → (∀ a σ', f (k a σ').2 = f σ') →
  f (bind m k σ).2 = f σ.
Proof.
  intros Hm Hk. unfold bind. destruct (m σ) as [[a|e|] σ']; simpl in *;
    [|done..].
  by rewrite Hk.
Qed.

Lemma for_each_preserves {A B C} (f : St → C) (l : list A)
    (body : A → B → Py St B) :
  (∀ x b σ, f (body x b σ).2 = f σ) →
  ∀ b σ, f (for_each l body b σ).2 = f σ.
Proof.
  intros Hbody. induction l as [|x l IH]; intros b σ; simpl; [done|].
  by apply bind_preserves.
Qed.
End PyFacts.

(** ** The deterministic automaton *)

Module AutomatonFacts.
Import Automaton.

Lemma transitions_getitem_present d q m :
  _transitions d !! q = Some m → transitions_getitem q d = (Return m, d).
Proof. intros H. unfold transitions_getitem. by rewrite H. Qed.

Lemma transition_defined d q a q' :
  delta d q a = Some q' → transition q a d = (Return q', d).
Proof.
  unfold delta, transition, bind. intros H.
  destruct (_transitions d !! q) as [m|] eqn:Hq; simpl in H; [|done].
  rewrite (transitions_getitem_present _ _ _ Hq). by rewrite H.
Qed.

(** [transition_exists] answers without touching the automaton. *)
Lemma transition_exists_run d q a :
  transition_exists q a d =
    (Return (match delta d q a with
             | Some q' => bool_decide (q' ∈ states d)
             | None => false
             end), d).
Proof.
  unfold transition_exists, delta, bind, get.
  destruct (_transitions d !! q) as [m|] eqn:Hq; simpl.
  - rewrite bool_decide_eq_true_2 by (apply elem_of_dom; eauto).
    rewrite (transitions_getitem_present _ _ _ Hq).
    destruct (m !! a) as [q'|] eqn:Ha.
    + rewrite bool_decide_eq_true_2 by (apply elem_of_dom; eauto).
      rewrite (transition_defined d q a q'); [done|].
      unfold delta. by rewrite Hq.
    + rewrite bool_decide_eq_false_2; [done|].
      rewrite elem_of_dom, Ha. by intros [? ?].
  - rewrite bool_decide_eq_false_2; [done|].
    rewrite elem_of_dom, Hq. by intros [? ?].
Qed.

Lemma parse_from_run l :
  ∀ q d, parse_from q l d = (Return (parse_run d q l), d).
Proof.
  induction l as [|a l IH]; intros q d; simpl; [done|].
  unfold bind at 1. rewrite transition_exists_run.
  destruct (delta d q a) as [q'|] eqn:Hd; [|done].
  case_bool_decide; [|done]. simpl.
  unfold bind at 1. rewrite (transition_defined _ _ _ _ Hd). apply IH.
Qed.

Lemma parse_run_state d l :
  ∀ q, q ∈ states d → (parse_run d q l).1 ∈ states d.
Proof.
  induction l as [|a l IH]; intros q Hq; simpl; [done|].
  destruct (delta d q a) as [q'|]; [|done].
  case_bool_decide; [|done]. by apply IH.
Qed.

Lemma parse_run_spec d l :
  targets_registered d → ∀ q, parse_run d q l = parse_spec d q l.
Proof.
  intros Hreg. induction l as [|a l IH]; intros q; simpl; [done|].
  destruct (delta d q a) as [q'|] eqn:Hd; [|done].
  rewrite bool_decide_eq_true_2 by eauto. apply IH.
Qed.

Lemma parse_string_run d s :
  parse_string s d = (Return (parse_run d (_start_state d) (letters s)), d).
Proof. unfold parse_string, bind, get. apply parse_from_run. Qed.

Lemma walk_end d q l q' :
  walk d q l q' → q' ∈ states d ∨ (q' = q ∧ l = []).
Proof.
  induction 1 as [q|q a q' l q'' Hd Hq' _ IH]; [by right|].
  left. by destruct IH as [?|[-> _]].
Qed.

(** The parser consumes a prefix of the input along [walk], and stops
    at the end of the input or at a blocked letter. *)
Lemma parse_run_walk d l :
  ∀ q, ∃ consumed rest,
    l = consumed ++ rest ∧
    walk d q consumed (parse_run d q l).1 ∧
    match rest with
    | [] => (parse_run d q l).2
            = bool_decide ((parse_run d q l).1 ∈ accept_states d)
    | a :: _ => (parse_run d q l).2 = false ∧
                blocked d (parse_run d q l).1 a
    end.
Proof.
  induction l as [|a l IH]; intros q; simpl.
  - exists [], []. split; [done|]. split; [apply walk_nil|done].
  - destruct (delta d q a) as [q'|] eqn:Hd.
    + case_bool_decide as Hq'.
      * destruct (IH q') as (consumed & rest & -> & Hwalk & Hrest).
        exists (a :: consumed), rest. split; [done|]. split; [|done].
        by apply walk_cons with q'.
      * exists [], (a :: l). split; [done|]. split; [apply walk_nil|].
        split; [done|]. right. by exists q'.
    + exists [], (a :: l). split; [done|]. split; [apply walk_nil|].
      split; [done|]. by left.
Qed.

(** C4, the claim as it stands, at the copy of the automaton [lone_q]:
    [copy] returns an automaton whose states are those of [lone_q], the
    state [State('q')] alone, and whose start state is [State('')];
    parsing the empty string with the copy returns [State('')], which
    is not one of its states. *)
Theorem parse_string_outside_states :
  ∃ c, copy lone_q = (Return c, lone_q) ∧
       (parse_string EmptyString c).1 = Return (mkState epsilon, false) ∧
       mkState epsilon ∉ states c.
Proof.
  eexists. split_and!; [reflexivity|vm_compute; reflexivity|].
  simpl. intros Hin. by apply elem_of_singleton in Hin.
Qed.

(** C4. Parsing a string with a deterministic automaton always returns
    a pair of a state and a boolean, and never raises. The parser
    consumes letters from the start state as long as the transition on
    the next letter is defined and leads to a state of the automaton: it
    returns the state where the first letter without such a transition
    stopped it together with [false], or the state reached after the
    last letter together with its membership in the accept states. The
    state returned is a state of the automaton or the start state, and
    so a state of the automaton when the start state is one. When every
    transition target is a state of the automaton, the pair is the one
    the specification describes, and the parser stops at undefined
    transitions only. *)
Theorem parse_string_total (d : t) (s : string) :
  ∃ q b,
    (parse_string s d).1 = Return (q, b) ∧
    (_start_state d ∈ states d → q ∈ states d) ∧
    (targets_registered d →
     (q, b) = parse_spec d (_start_state d) (letters s)) ∧
    (q ∈ states d ∨ q = _start_state d) ∧
    ∃ consumed rest,
      letters s = consumed ++ rest ∧
      walk d (_start_state d) consumed q ∧
      match rest with
      | [] => b = bool_decide (q ∈ accept_states d)
      | a :: _ => b = false ∧ blocked d q a
      end.
Proof.
  exists (parse_run d (_start_state d) (letters s)).1,
         (parse_run d (_start_state d) (letters s)).2.
  rewrite parse_string_run.
  destruct (parse_run_walk d (letters s) (_start_state d))
    as (consumed & rest & Hl & Hwalk & Hrest).
  split_and!.
  - by destruct (parse_run _ _ _).
  - apply parse_run_state.
  - intros Hreg. rewrite <- (parse_run_spec d _ Hreg).
    by destruct (parse_run _ _ _).
  - destruct (walk_end _ _ _ _ Hwalk) as [?|[? _]]; [by left|by right].
  - by exists consumed, rest.
Qed.

(** C9. Parsing a string leaves the automaton as it was: start state,
    alphabet, states, accept states, reject states and transition table
    are the same after the call as before; and so does every call of
    [transition_exists], which tests membership without inserting. *)
Theorem parse_string_frame (d : t) (s : string) :
  (parse_string s d).2 = d ∧
  ∀ q a, (transition_exists q a d).2 = d.
Proof.
  split.
  - by rewrite parse_string_run.
  - intros q a. by rewrite transition_exists_run.
Qed.

(** [delta] after [delta(q1, a)] was set to [q2]. *)
Lemma delta_insert d q1 q2 a q b :
  delta (set_transitions
           (insert q1 (<[a := q2]> (default ∅ (_transitions d !! q1)))) d)
        q b
  = if decide ((q, b) = (q1, a)) then Some q2 else delta d q b.
Proof.
  unfold delta; simpl. destruct (decide (q = q1)) as [->|Hq].
  - rewrite lookup_insert_eq; simpl.
    destruct (decide (b = a)) as [->|Hb].
    + rewrite lookup_insert_eq. by rewrite decide_True.
    + rewrite lookup_insert_ne by done.
      rewrite decide_False by congruence.
      by destruct (_transitions d !! q1).
  - rewrite lookup_insert_ne by done. by rewrite decide_False by congruence.
Qed.

Lemma add_transition_in d q1 q2 a :
  a ∈ _alphabet d →
  add_transition q1 q2 a d =
    (Return tt,
     mk (_start_state d) (_alphabet d) (states d ∪ {[q1; q2]})
        (accept_states d) (reject_states d)
        (<[q1 := <[a := q2]> (default ∅ (_transitions d !! q1))]>
           (_transitions d))).
Proof.
  intros Ha. unfold add_transition, bind, get, modify.
  rewrite bool_decide_eq_true_2 by done.
  unfold transitions_setitem, transitions_getitem, bind, modify,
    set_transitions, set_states; simpl.
  destruct (_transitions d !! q1) as [m|]; simpl; [done|].
  by rewrite insert_insert_eq.
Qed.

Lemma add_transition_out d q1 q2 a :
  a ∉ _alphabet d → add_transition q1 q2 a d = (Raise ValueError, d).
Proof.
  intros Ha. unfold add_transition, bind, get.
  by rewrite bool_decide_eq_false_2.
Qed.

Lemma add_transition_step d q1 q2 a :
  a ∈ _alphabet d →
  ∃ d', add_transition q1 q2 a d = (Return tt, d') ∧
        _alphabet d' = _alphabet d ∧
        _start_state d' = _start_state d ∧
        accept_states d' = accept_states d ∧
        reject_states d' = reject_states d ∧
        states d' = states d ∪ {[q1; q2]} ∧
        ∀ q b, delta d' q b =
               if decide ((q, b) = (q1, a)) then Some q2 else delta d q b.
Proof.
  intros Ha. rewrite add_transition_in by done.
  eexists; split; [done|]. simpl. split_and!; try done.
  intros q b. exact (delta_insert d q1 q2 a q b).
Qed.

(** C7. [add_transition] raises (a [ValueError], the alphabet error of
    the specification) exactly when the symbol is not in the alphabet,
    and then leaves the automaton as it was. Otherwise it returns, the
    states are the former ones with [q1] and [q2] added, [delta(q1, a)]
    is [q2] whatever it was before, every other transition is as before,
    and start state, alphabet, accept and reject states are unchanged.
    [delta] being a partial function, a state and a symbol have at most
    one target. *)
Theorem add_transition_spec (d : t) (q1 q2 : State) (a : string) :
  ((add_transition q1 q2 a d).1 = Raise ValueError ↔ a ∉ _alphabet d) ∧
  (a ∉ _alphabet d → (add_transition q1 q2 a d).2 = d) ∧
  (a ∈ _alphabet d →
   let d' := (add_transition q1 q2 a d).2 in
   (add_transition q1 q2 a d).1 = Return tt ∧
   states d' = states d ∪ {[q1; q2]} ∧
   delta d' q1 a = Some q2 ∧
   (∀ q b, (q, b) ≠ (q1, a) → delta d' q b = delta d q b) ∧
   _start_state d' = _start_state d ∧
   _alphabet d' = _alphabet d ∧
   accept_states d' = accept_states d ∧
   reject_states d' = reject_states d).
Proof.
  split_and!.
  - destruct (decide (a ∈ _alphabet d)) as [Ha|Ha].
    + rewrite add_transition_in by done. simpl. split; [done|tauto].
    + by rewrite add_transition_out.
  - intros Ha. by rewrite add_transition_out.
  - intros Ha. rewrite add_transition_in by done. simpl.
    split_and!; try done.
    + unfold delta; simpl. rewrite lookup_insert_eq; simpl.
      by rewrite lookup_insert_eq.
    + intros q b Hne. unfold delta; simpl.
      destruct (decide (q = q1)) as [->|Hq].
      * rewrite lookup_insert_eq; simpl.
        rewrite lookup_insert_ne by congruence.
        by destruct (_transitions d !! q1).
      * by rewrite lookup_insert_ne.
Qed.

(** A run of [add_transition] inside the alphabet, on the automaton
    with the single state [State('')] over the alphabet of [a]. *)
Lemma add_transition_spec_witness :
  let d := init {["a"]} (mkState epsilon) in
  let d' := (add_transition (mkState epsilon) (mkState "a") "a" d).2 in
  states d' = states d ∪ {[mkState epsilon; mkState "a"]} ∧
  delta d' (mkState epsilon) "a" = Some (mkState "a").
Proof.
  intros d d'.
  destruct (add_transition_spec d (mkState epsilon) (mkState "a") "a")
    as (_ & _ & H).
  destruct H as (_ & Hs & Hd & _); [vm_compute; reflexivity|].
  split; [exact Hs | exact Hd].
Defined.

(** A parse on a small automaton whose invariants hold. *)
Lemma parse_string_total_witness :
  let d := (add_transition (mkState epsilon) (mkState "a") "a"
              (init {["a"]} (mkState epsilon))).2 in
  ∃ q b, (parse_string "ab" d).1 = Return (q, b) ∧ q ∈ states d ∧
         (q, b) = parse_spec d (_start_state d) (letters "ab").
Proof.
  intros d.
  destruct (parse_string_total d "ab") as (q & b & Hr & Hq & Hs & _).
  exists q, b. split_and!; [exact Hr | |].
  - apply Hq. vm_compute. reflexivity.
  - apply Hs. intros q0 a0 q'. unfold d.
    rewrite add_transition_in by (vm_compute; reflexivity).
    unfold delta; simpl. rewrite lookup_empty; simpl.
    destruct (decide (q0 = mkState epsilon)) as [->|Hne].
    + rewrite lookup_insert_eq; simpl.
      destruct (decide (a0 = "a")) as [->|Hne].
      * rewrite lookup_insert_eq. intros [= <-]. set_solver.
      * rewrite lookup_insert_ne by done. by rewrite lookup_empty.
    + rewrite lookup_insert_ne by done. by rewrite lookup_empty.
Defined.

End AutomatonFacts.

(** ** The prefix-tree acceptor *)

Module PTAFacts.
Import Automaton AutomatonFacts.

Lemma prefixes_spec w : ∀ u, u ∈ prefixes w ↔ ∃ v, w = u +:+ v.
Proof.
  induction w as [|c w IH]; intros u; simpl.
  - rewrite list_elem_of_singleton. split.
    + intros ->. by exists EmptyString.
    + intros [v Hv]. by destruct u.
  - rewrite elem_of_cons, list_elem_of_fmap. split.
    + intros [->|(u' & -> & Hu')].
      * by exists (String c w).
      * apply IH in Hu' as [v ->]. by exists v.
    + intros [v Hv]. destruct u as [|c' u]; [by left|]. right.
      simpl in Hv. injection Hv as <- ->.
      exists u. split; [done|]. apply IH. by exists v.
Qed.

Lemma prefix_set_spec samples alphabet u :
  u ∈ prefix_set samples alphabet ↔ is_prefix_of samples u.
Proof.
  unfold prefix_set, is_prefix_of. rewrite list_elem_of_bind. split.
  - intros (w & Hu & Hw). apply prefixes_spec in Hu as [v ->].
    apply elem_of_elements in Hw. by exists (u +:+ v), v.
  - intros (w & v & Hw & ->). exists (u +:+ v). split.
    + apply prefixes_spec. by exists v.
    + by apply elem_of_elements.
Qed.

Lemma determine_alphabet_inhabited samples a :
  a ∈ determine_alphabet samples → is_prefix_of samples EmptyString.
Proof.
  unfold determine_alphabet. rewrite elem_of_list_to_set, list_elem_of_bind.
  intros (w & _ & Hw). apply elem_of_elements in Hw. by exists w, w.
Qed.

Section Build.
Variables s_plus s_minus : gset string.

Let samples : gset string := s_plus ∪ s_minus.
Let Σ : gset string := determine_alphabet samples.
Let P : gset State := list_to_set (mkState <$> prefix_set samples Σ).

Lemma elem_of_P q : q ∈ P ↔ is_prefix_of samples (name q).
Proof.
  unfold P. rewrite elem_of_list_to_set, list_elem_of_fmap. split.
  - intros (u & -> & Hu). by apply prefix_set_spec in Hu.
  - intros Hq. exists (name q). split; [by destruct q|].
    by apply prefix_set_spec.
Qed.

Lemma link_step d u a :
  pta_base Σ d → pta_sound Σ P d → a ∈ Σ → u = mkState epsilon ∨ u ∈ P →
  ∃ d', add_transition u (mkState (name u +:+ a)) a d = (Return tt, d') ∧
        pta_base Σ d' ∧ pta_sound Σ P d' ∧ pta_linked d' u a ∧
        ∀ q b, pta_linked d q b → pta_linked d' q b.
Proof.
  intros (Hal & Hst & Hacc & Hrej) Hsound Ha Hu.
  destruct (add_transition_step d u (mkState (name u +:+ a)) a)
    as (d' & Hrun & Hal' & Hst' & Hacc' & Hrej' & _ & Hdelta).
  { by rewrite Hal. }
  exists d'. split; [done|]. split_and!.
  - unfold pta_base. by rewrite Hal', Hst', Hacc', Hrej'.
  - intros q b q'. rewrite Hdelta. case_decide as Heq.
    + injection Heq as -> ->. by intros [= <-].
    + apply Hsound.
  - unfold pta_linked. rewrite Hdelta. by rewrite decide_True.
  - intros q b. unfold pta_linked. rewrite Hdelta. case_decide as Heq; [|done].
    by injection Heq as -> ->.
Qed.

(** The first loop: a transition from [State('')] on every letter. *)
Lemma first_loop d :
  pta_base Σ d → pta_sound Σ P d →
  ∃ d', for_each (elements Σ)
          (λ letter _,
             add_transition (mkState epsilon) (mkState letter) letter)
          tt d = (Return tt, d') ∧
        pta_base Σ d' ∧ pta_sound Σ P d'.
Proof.
  intros Hbase Hsound.
  destruct (for_each_invariant (λ _ _ d', pta_base Σ d' ∧ pta_sound Σ P d')
              (λ letter (_ : unit),
                 add_transition (mkState epsilon) (mkState letter) letter)
              (elements Σ)) with (b := tt) (σ := d)
    as ([] & d' & Hrun & Hinv); [|done|by exists d'].
  intros _ letter [] σ [Hb Hs] Hin. apply elem_of_elements in Hin.
  destruct (link_step σ (mkState epsilon) letter) as (σ' & Hr & ? & ? & _);
    [done|done|done|by left|].
  by exists tt, σ'.
Qed.

(** The inner loop, over the letters, for one prefix [u]. *)
Lemma inner_loop us u d new_states :
  u ∈ P →
  pta_base Σ d → pta_sound Σ P d →
  (∀ u' a, u' ∈ us → a ∈ Σ → pta_linked d u' a) →
  (∀ q, q ∈ new_states ↔ (q ∉ P) ∧ extension_of Σ us q) →
  ∃ new_states' d',
    for_each (elements Σ) (pta_extend P u) new_states d
      = (Return new_states', d') ∧
    pta_base Σ d' ∧ pta_sound Σ P d' ∧
    (∀ u' a, u' ∈ us ++ [u] → a ∈ Σ → pta_linked d' u' a) ∧
    (∀ q, q ∈ new_states' ↔ (q ∉ P) ∧ extension_of Σ (us ++ [u]) q).
Proof.
  intros Hu Hbase Hsound Hlinked Hnew.
  destruct (for_each_invariant
              (λ visited ns d',
                 pta_base Σ d' ∧ pta_sound Σ P d' ∧
                 (∀ u' a, u' ∈ us → a ∈ Σ → pta_linked d' u' a) ∧
                 (∀ a, a ∈ visited → pta_linked d' u a) ∧
                 (∀ q, q ∈ ns ↔
                       (q ∉ P) ∧ (extension_of Σ us q ∨
                                ∃ a, a ∈ visited ∧
                                     q = mkState (name u +:+ a))))
              (pta_extend P u) (elements Σ))
    with (b := new_states) (σ := d)
    as (ns' & d' & Hrun & Hb' & Hs' & Hl' & Hu' & Hns').
  - intros visited a ns σ (Hb & Hs & Hl & Hv & Hns) Hin.
    apply elem_of_elements in Hin.
    destruct (link_step σ u a) as (σ' & Hr & Hb1 & Hs1 & Hl1 & Hmono);
      [done|done|done|by right|].
    unfold pta_extend, bind. rewrite Hr. eexists _, σ'. split; [done|].
    split_and!; [done|done| | |].
    + intros u' b Hu' Hb'. apply Hmono. by apply Hl.
    + intros b [Hb'| ->%list_elem_of_singleton]%elem_of_app; [|done].
      apply Hmono. by apply Hv.
    + intros q. case_bool_decide as Hua.
      * rewrite Hns. split.
        -- intros [Hq [Hex|(b & Hb' & ->)]]; (split; [done|]);
             [by left|right]. exists b. split; [|done].
           apply elem_of_app. by left.
        -- intros [Hq [Hex|(b & Hb' & ->)]]; (split; [done|]);
             [by left|].
           apply elem_of_app in Hb' as [Hb'| ->%list_elem_of_singleton];
             [|done].
           right. by exists b.
      * rewrite elem_of_union, elem_of_singleton, Hns. split.
        -- intros [[Hq [Hex|(b & Hb' & ->)]]| ->].
           ++ split; [done|]. by left.
           ++ split; [done|]. right. exists b. split; [|done].
              apply elem_of_app. by left.
           ++ split; [done|]. right. exists a. split; [|done].
              apply elem_of_app. right. by apply list_elem_of_singleton.
        -- intros [Hq [Hex|(b & Hb' & ->)]].
           ++ left. split; [done|]. by left.
           ++ apply elem_of_app in Hb'
                as [Hb'| ->%list_elem_of_singleton]; [|by right].
              left. split; [done|]. right. by exists b.
  - split_and!; [done|done|done| |].
    + intros a []%elem_of_nil.
    + intros q. rewrite Hnew. split.
      * intros [? ?]. split; [done|]. by left.
      * intros [? [?|(a & []%elem_of_nil & _)]]. done.
  - exists ns', d'. split; [done|]. split_and!; [done|done| |].
    + intros u' a [Hin| ->%list_elem_of_singleton]%elem_of_app Ha.
      * by apply Hl'.
      * apply Hu'. by apply elem_of_elements.
    + intros q. rewrite Hns'. unfold extension_of. split.
      * intros [Hq [(u' & a & Hin & Ha & ->)|(a & Ha & ->)]];
          (split; [done|]).
        -- exists u', a. split_and!; [|done|done]. apply elem_of_app.
           by left.
        -- exists u, a. split_and!; [|by apply elem_of_elements|done].
           apply elem_of_app. right. by apply list_elem_of_singleton.
      * intros [Hq (u' & a & Hin & Ha & ->)]. split; [done|].
        apply elem_of_app in Hin as [Hin| ->%list_elem_of_singleton].
        -- left. by exists u', a.
        -- right. exists a. split; [|done]. by apply elem_of_elements.
Qed.

(** The second loop, over the prefixes. *)
Lemma second_loop d :
  pta_base Σ d → pta_sound Σ P d →
  ∃ new_states d',
    for_each (elements P)
      (λ u, for_each (elements Σ) (pta_extend P u)) ∅ d
      = (Return new_states, d') ∧
    pta_base Σ d' ∧ pta_sound Σ P d' ∧
    (∀ u a, u ∈ P → a ∈ Σ → pta_linked d' u a) ∧
    (∀ q, q ∈ new_states ↔ (q ∉ P) ∧ extension_of Σ (elements P) q).
Proof.
  intros Hbase Hsound.
  destruct (for_each_invariant
              (λ us ns d',
                 pta_base Σ d' ∧ pta_sound Σ P d' ∧
                 (∀ u a, u ∈ us → a ∈ Σ → pta_linked d' u a) ∧
                 (∀ q, q ∈ ns ↔ (q ∉ P) ∧ extension_of Σ us q))
              (λ u, for_each (elements Σ) (pta_extend P u)) (elements P))
    with (b := (∅ : gset State)) (σ := d)
    as (ns' & d' & Hrun & Hb' & Hs' & Hl' & Hns').
  - intros us u ns σ (Hb & Hs & Hl & Hns) Hin.
    apply elem_of_elements in Hin.
    destruct (inner_loop us u σ ns) as (ns1 & σ1 & ? & ? & ? & ? & ?);
      [done..|].
    by exists ns1, σ1.
  - split_and!; [done|done| |].
    + by intros u a []%elem_of_nil.
    + intros q. split; [set_solver|].
      by intros [_ (u & a & []%elem_of_nil & _)].
  - exists ns', d'. split; [done|]. split_and!; [done|done| |done].
    intros u a Hu. apply Hl'. by apply elem_of_elements.
Qed.

(** The third loop: the accept and reject states among [l]. *)
Lemma classify_loop (l : list State) d :
  accept_states d = ∅ → reject_states d = ∅ →
  ∃ d', for_each l (pta_classify s_plus s_minus) tt d = (Return tt, d') ∧
        _transitions d' = _transitions d ∧
        _alphabet d' = _alphabet d ∧
        _start_state d' = _start_state d ∧
        (∀ q, q ∈ accept_states d' ↔ q ∈ l ∧ name q ∈ s_plus) ∧
        (∀ q, q ∈ reject_states d' ↔ q ∈ l ∧ name q ∈ s_minus).
Proof.
  intros Hacc Hrej.
  destruct (for_each_invariant
              (λ visited (_ : unit) d',
                 _transitions d' = _transitions d ∧
                 _alphabet d' = _alphabet d ∧
                 _start_state d' = _start_state d ∧
                 (∀ q, q ∈ accept_states d' ↔
                       q ∈ visited ∧ name q ∈ s_plus) ∧
                 (∀ q, q ∈ reject_states d' ↔
                       q ∈ visited ∧ name q ∈ s_minus))
              (pta_classify s_plus s_minus) l)
    with (b := tt) (σ := d) as ([] & d' & Hrun & Hinv); [| |by exists d'].
  - intros visited u [] σ (Htr & Hal & Hst & Ha & Hr) _.
    unfold pta_classify, bind, modify, ret.
    assert (∀ q, q ∈ visited ++ [u] ↔ q ∈ visited ∨ q = u) as Happ.
    { intros q. by rewrite elem_of_app, list_elem_of_singleton. }
    do 2 case_bool_decide; eexists tt, _; (split; [done|]); simpl;
      (split_and!; [done|done|done| |]); intros q; rewrite Happ;
      rewrite ?elem_of_union, ?elem_of_singleton, ?Ha, ?Hr;
      intuition (subst; try done).
  - rewrite Hacc, Hrej. split_and!; [done|done|done| |];
      intros q; rewrite elem_of_nil, elem_of_empty; tauto.
Qed.

Lemma append_empty_r (u : string) : u +:+ EmptyString = u.
Proof.
  induction u as [|c u IH]; [done|].
  change (String c (u +:+ EmptyString) = String c u). by rewrite IH.
Qed.

Lemma sample_in_P u : u ∈ samples → mkState u ∈ P.
Proof.
  intros Hu. apply elem_of_P. exists u, EmptyString. split; [done|].
  symmetry. apply append_empty_r.
Qed.

(** The automaton that [build_pta] returns. *)
Lemma build_pta_result :
  ∃ pta,
    build_pta s_plus s_minus = Return pta ∧
    _start_state pta = mkState epsilon ∧
    _alphabet pta = Σ ∧
    (∀ q, q ∈ states pta ↔ q ∈ P ∨ extension_of Σ (elements P) q) ∧
    (∀ u a, u ∈ P → a ∈ Σ → pta_linked pta u a) ∧
    pta_sound Σ P pta ∧
    (∀ q, q ∈ accept_states pta ↔ name q ∈ s_plus) ∧
    (∀ q, q ∈ reject_states pta ↔ name q ∈ s_minus).
Proof.
  unfold build_pta, build_pta_body. fold samples. fold Σ. fold P.
  set (d0 := init Σ (mkState epsilon)).
  assert (pta_base Σ d0) as Hb0 by done.
  assert (pta_sound Σ P d0) as Hs0.
  { intros q a q'. unfold delta; simpl. by rewrite lookup_empty. }
  destruct (first_loop d0 Hb0 Hs0) as (d1 & Hrun1 & Hb1 & Hs1).
  destruct (second_loop d1 Hb1 Hs1)
    as (ns & d2 & Hrun2 & Hb2 & Hs2 & Hl2 & Hns).
  destruct Hb2 as (Hal2 & Hst2 & Hacc2 & Hrej2).
  destruct (classify_loop (elements (P ∪ ns)) d2 Hacc2 Hrej2)
    as (d3 & Hrun3 & Htr3 & Hal3 & Hst3 & Ha3 & Hr3).
  unfold bind at 1. rewrite Hrun1.
  unfold bind at 1. rewrite Hrun2.
  unfold bind at 1. rewrite Hrun3. unfold modify.
  eexists. split; [done|]. simpl.
  assert (∀ q a, delta d3 q a = delta d2 q a) as Hdelta.
  { intros q a. unfold delta. by rewrite Htr3. }
  split_and!.
  - by rewrite Hst3.
  - by rewrite Hal3.
  - intros q. rewrite elem_of_union, Hns.
    destruct (decide (q ∈ P)); tauto.
  - intros u a Hu Ha. unfold pta_linked, delta; simpl.
    rewrite Htr3. by apply Hl2.
  - intros q a q'. unfold delta; simpl. rewrite Htr3. apply Hs2.
  - intros q. rewrite Ha3, elem_of_elements, elem_of_union. split.
    + by intros [_ ?].
    + intros Hq. split; [|done]. left.
      replace q with (mkState (name q)) by by destruct q.
      apply sample_in_P. apply elem_of_union. by left.
  - intros q. rewrite Hr3, elem_of_elements, elem_of_union. split.
    + by intros [_ ?].
    + intros Hq. split; [|done]. left.
      replace q with (mkState (name q)) by by destruct q.
      apply sample_in_P. apply elem_of_union. by right.
Qed.

End Build.

(** For the single positive sample [a], [State('aa')] is a state of the
    automaton and [aa] is not a prefix of [a]. *)
Lemma build_pta_beyond_prefixes : ¬ prefix_tree {["a"]} ∅.
Proof.
  intros (pta & Hrun & Hst & _).
  assert (mkState "aa" ∈ states pta) as Hin.
  { vm_compute in Hrun. injection Hrun as <-. vm_compute. reflexivity. }
  apply Hst in Hin as (w & v & Hw & Heq).
  apply elem_of_union in Hw as [Hw|Hw].
  - apply elem_of_singleton in Hw. subst w. simpl in Heq. discriminate.
  - by apply elem_of_empty in Hw.
Qed.

(** C6, amended. For all sets of positive and negative samples,
    [build_pta] returns an automaton over the letters of the samples,
    with the start state [State('')], whose states are the prefixes of
    the samples together with the extensions of a prefix by one letter
    of the alphabet; whose transitions are exactly those from a prefix
    [u] on a letter [a] to [ua], so that the states that are not
    prefixes have none; whose accept states are the positive samples and
    whose reject states are the negative samples. *)
Theorem build_pta_spec (s_plus s_minus : gset string) :
  ∃ pta,
    build_pta s_plus s_minus = Return pta ∧
    _alphabet pta = determine_alphabet (s_plus ∪ s_minus) ∧
    _start_state pta = mkState epsilon ∧
    (∀ q, q ∈ states pta ↔
          is_prefix_of (s_plus ∪ s_minus) (name q) ∨
          ∃ u a, is_prefix_of (s_plus ∪ s_minus) u ∧ a ∈ _alphabet pta ∧
                 name q = u +:+ a) ∧
    (∀ u a, is_prefix_of (s_plus ∪ s_minus) u → a ∈ _alphabet pta →
            delta pta (mkState u) a = Some (mkState (u +:+ a))) ∧
    (∀ q a q', delta pta q a = Some q' →
               is_prefix_of (s_plus ∪ s_minus) (name q) ∧
               a ∈ _alphabet pta ∧ q' = mkState (name q +:+ a)) ∧
    (∀ q, q ∈ accept_states pta ↔ name q ∈ s_plus) ∧
    (∀ q, q ∈ reject_states pta ↔ name q ∈ s_minus).
Proof.
  destruct (build_pta_result s_plus s_minus)
    as (pta & Hrun & Hst & Hal & Hstates & Hlinked & Hsound & Hacc & Hrej).
  exists pta. rewrite Hal. split_and!; try done.
  - intros q. rewrite Hstates, elem_of_P. unfold extension_of. split.
    + intros [Hq|(u & a & Hu & Ha & ->)]; [by left|right].
      apply elem_of_elements, elem_of_P in Hu. by exists (name u), a.
    + intros [Hq|(u & a & Hu & Ha & Hq)]; [by left|right].
      exists (mkState u), a. split_and!; [|done|].
      * by apply elem_of_elements, elem_of_P.
      * destruct q; simpl in *; by subst.
  - intros u a Hu Ha. apply (Hlinked (mkState u) a); [|done].
    by apply elem_of_P.
  - intros q a q' Hd. destruct (Hsound q a q' Hd) as ([->|Hq] & Ha & ->).
    + split_and!; [|done..]. by apply determine_alphabet_inhabited in Ha.
    + split_and!; [|done..]. by apply elem_of_P.
Qed.

End PTAFacts.

(** ** Reachability minimisation *)

Module MinimizeFacts.
Import Automaton.

(** C2. On the automaton [lone_q], whose start state is not labelled
    with the empty string, [minimize] searches from [State('')] and not
    from the start state: the automaton it returns has the start state
    [State('')], does not have the reachable state [State('q')], and
    rejects the empty string, which [lone_q] accepts. *)
Theorem minimize_searches_from_empty_label (fuel : nat) :
  ∃ m,
    (minimize (S fuel) lone_q).1 = Return m ∧
    (parse_string EmptyString lone_q).1 = Return (mkState "q", true) ∧
    (parse_string EmptyString m).1 = Return (mkState epsilon, false) ∧
    _start_state lone_q = mkState "q" ∧
    _start_state m = mkState epsilon ∧
    mkState "q" ∉ states m.
Proof.
  exists (init {["a"]} (mkState epsilon)).
  split_and!; try (vm_compute; reflexivity).
  - destruct fuel; vm_compute; reflexivity.
  - vm_compute. discriminate.
Qed.

End MinimizeFacts.

(** ** Ordered dictionaries *)

Section OrderedDictFacts.
Context {K V : Type} `{EqDecision K}.
Implicit Types (k : K) (v : V) (d : list (K * V)).

Lemma od_lookup_set_eq k v d : od_lookup k (od_set k v d) = Some v.
Proof.
  induction d as [|[k' v'] d IH]; simpl.
  - by rewrite decide_True.
  - destruct (decide (k = k')) as [->|Hne]; simpl.
    + by rewrite decide_True.
    + by rewrite decide_False.
Qed.

Lemma od_lookup_set_ne k k' v d :
  k ≠ k' → od_lookup k' (od_set k v d) = od_lookup k' d.
Proof.
  intros Hne. induction d as [|[k0 v0] d IH]; simpl.
  - by rewrite decide_False.
  - destruct (decide (k = k0)) as [->|Hk]; simpl.
    + by rewrite !decide_False.
    + by rewrite IH.
Qed.

Lemma od_set_set k v v' d : od_set k v (od_set k v' d) = od_set k v d.
Proof.
  induction d as [|[k0 v0] d IH]; simpl.
  - by rewrite decide_True.
  - destruct (decide (k = k0)) as [->|Hk]; simpl.
    + by rewrite decide_True.
    + rewrite decide_False by done. by rewrite IH.
Qed.
End OrderedDictFacts.

(** ** The non-deterministic automaton: transitions and states *)

Module NFAFacts.
Import NFA.

Lemma nfa_add_transition_in n q1 q2 a :
  a ∈ alphabet n ∨ a = epsilon →
  add_transition q1 q2 a n = (Return tt, added q1 q2 a n).
Proof.
  intros Ha. unfold add_transition, bind, get.
  replace (bool_decide (a ∉ alphabet n) && bool_decide (a ≠ epsilon))
    with false.
  2:{ symmetry. apply andb_false_iff. destruct Ha as [Ha| ->].
      - left. by apply bool_decide_eq_false_2; intros ?.
      - right. by apply bool_decide_eq_false_2; intros ?. }
  unfold transitions_getitem, added, modify, set_transitions; simpl.
  destruct (_transitions n !! q1) as [m|]; simpl.
  - destruct (od_lookup a m) as [S|] eqn:Hm; simpl.
    + by rewrite Hm.
    + rewrite od_lookup_set_eq. by rewrite od_set_set.
  - rewrite decide_True by done. simpl. rewrite decide_True by done.
    by rewrite insert_insert_eq.
Qed.

Lemma nfa_add_transition_out n q1 q2 a :
  a ∉ alphabet n → a ≠ epsilon →
  add_transition q1 q2 a n = (Raise ValueError, n).
Proof.
  intros Ha He. unfold add_transition, bind, get.
  by rewrite !bool_decide_eq_true_2.
Qed.

Lemma edge_added n q1 q2 a p b r :
  edge (added q1 q2 a n) p b r ↔
  edge n p b r ∨ (p = q1 ∧ b = a ∧ r = q2).
Proof.
  unfold edge, added; simpl.
  destruct (decide (p = q1)) as [->|Hp].
  - setoid_rewrite lookup_insert_eq.
    destruct (decide (b = a)) as [->|Hb].
    + split.
      * intros (m & S & [= <-] & HS & Hr).
        rewrite od_lookup_set_eq in HS. injection HS as <-.
        apply elem_of_union in Hr as [Hr|Hr]; [|set_solver].
        left. destruct (_transitions n !! q1) as [m|]; simpl in *;
          [|set_solver].
        destruct (od_lookup a m) as [S|] eqn:Hm; simpl in *;
          [|set_solver].
        eauto.
      * intros [(m & S & Hm & HS & Hr)|(_ & _ & ->)];
          eexists _, _; (split; [done|]);
          (split; [apply od_lookup_set_eq|]).
        -- rewrite Hm; simpl. rewrite HS; simpl. set_solver.
        -- set_solver.
    + split.
      * intros (m & S & [= <-] & HS & Hr).
        rewrite od_lookup_set_ne in HS by done.
        left. destruct (_transitions n !! q1) as [m|]; simpl in *;
          [eauto|done].
      * intros [(m & S & Hm & HS & Hr)|(_ & ? & _)]; [|done].
        eexists _, S. split; [done|].
        rewrite od_lookup_set_ne by done. rewrite Hm; simpl. done.
  - setoid_rewrite lookup_insert_ne; [|done..].
    split; [by left|]. by intros [?|(? & _)].
Qed.

(** On the automaton just built by [NFA({'a'})], the call
    [add_transition(State('p'), State('q'), 'a')] leaves the set of
    states empty. *)
Lemma add_transition_does_not_register :
  ¬ registers_target (init {["a"]}) (mkState "p") (mkState "q") "a".
Proof.
  intros H. destruct (H ltac:(left; vm_compute; reflexivity) ∅)
    as [Hq _]; [vm_compute; reflexivity|].
  set_solver.
Qed.

(** C5, amended. A call [add_transition(q1, q2, a)] with [a] in the
    alphabet or the empty symbol returns, puts [q2] into [delta(q1, a)]
    and leaves the set of states that [get_states()] returns as it was:
    states are registered by [add_state] and [add_start_state] only. So
    the states of the transition relation are all registered after the
    call exactly when they were before it and [q1] and [q2] were already
    registered. *)
Theorem add_transition_keeps_states (n : t) (q1 q2 : State) (a : string) :
  a ∈ alphabet n ∨ a = epsilon →
  (add_transition q1 q2 a n).1 = Return tt ∧
  edge (add_transition q1 q2 a n).2 q1 a q2 ∧
  (get_states (add_transition q1 q2 a n).2).1 = Return (_states n) ∧
  (registered (add_transition q1 q2 a n).2 ↔
   registered n ∧ q1 ∈ _states n ∧ q2 ∈ _states n).
Proof.
  intros Ha. rewrite nfa_add_transition_in by done. simpl.
  split_and!; [done| |done|].
  - apply edge_added. auto.
  - unfold registered. setoid_rewrite edge_added. simpl. split.
    + intros H. split_and!.
      * intros p b r Hed. apply (H p b r). auto.
      * apply (H q1 a q2). auto.
      * apply (H q1 a q2). auto.
    + intros (H & H1 & H2) p b r [Hed|(-> & -> & ->)]; eauto.
Qed.

(** The call of the counterexample, with the states registered first. *)
Lemma add_transition_keeps_states_witness :
  let n := (add_state (mkState "p");; add_state (mkState "q"))
             (init {["a"]}) in
  (get_states (add_transition (mkState "p") (mkState "q") "a" n.2).2).1
    = Return (_states n.2).
Proof.
  intros n.
  destruct (add_transition_keeps_states n.2 (mkState "p") (mkState "q") "a")
    as (_ & _ & H & _); [left; vm_compute; reflexivity|exact H].
Defined.

(** *** Parsing *)

Section Parse.
Variable s : string.

Lemma parse_push_returns index symbol to_state stack n :
  index < length (letters s) →
  Forall (in_range s) stack →
  ∃ stack', parse_push s index symbol to_state stack n
              = (Return stack', n) ∧ Forall (in_range s) stack'.
Proof.
  intros Hlt Hst. unfold parse_push.
  case_bool_decide.
  - eexists; split; [done|]. constructor; [|done].
    unfold in_range; simpl; lia.
  - unfold bind, str_getitem.
    destruct (lookup_lt_is_Some_2 (letters s) index Hlt) as [c ->].
    simpl. case_bool_decide.
    + eexists; split; [done|]. constructor; [|done].
      unfold in_range; simpl; lia.
    + by eexists.
Qed.

Lemma parse_while_no_raise fuel :
  ∀ stack n, Forall (in_range s) stack →
    ∃ o n', parse_while fuel s stack n = (o, n') ∧
            (∀ e, o ≠ Raise e) ∧
            _start_states n' = _start_states n.
Proof.
  induction fuel as [|fuel IH]; intros stack n Hst.
  - destruct stack as [|[state index] stack]; simpl.
    + by eexists _, _.
    + by eexists _, _.
  - destruct stack as [|[state index] stack]; simpl.
    { by eexists _, _. }
    apply Forall_cons in Hst as [Hin Hst].
    case_bool_decide as Hidx.
    + unfold bind, get. case_bool_decide.
      * by eexists _, _.
      * by apply IH.
    + unfold bind at 1.
      assert (∃ symbols n1,
                transitions_getitem state n = (Return symbols, n1) ∧
                _start_states n1 = _start_states n)
        as (symbols & n1 & -> & Hn1).
      { unfold transitions_getitem.
        destruct (_transitions n !! state); by eexists _, _. }
      unfold bind at 1.
      destruct (for_each_returns (Forall (in_range s)) symbols
                  (λ item, for_each (elements item.2)
                             (parse_push s index item.1)) n1)
        with (b := stack) as (stack1 & -> & Hst1); [|done|].
      { intros item b Hb.
        apply for_each_returns; [|done].
        intros to_state b0 Hb0. apply parse_push_returns; [|done].
        unfold in_range in Hin; simpl in Hin. lia. }
      destruct (IH stack1 n1 Hst1) as (o & n' & -> & Ho & Hn').
      eexists _, _. split; [done|]. split; [done|]. congruence.
Qed.

Lemma parse_starts_no_raise fuel starts :
  ∀ n, ∃ o n', parse_starts fuel s starts n = (o, n') ∧
               (∀ e, o ≠ Raise e) ∧
               _start_states n' = _start_states n.
Proof.
  induction starts as [|q starts IH]; intros n; simpl.
  - by eexists _, _.
  - unfold bind.
    destruct (parse_while_no_raise fuel [(q, 0)] n)
      as (o & n1 & -> & Ho & Hn1).
    { constructor; [|done]. unfold in_range; simpl; lia. }
    destruct o as [[state|]|e|].
    + by eexists _, _.
    + destruct (IH n1) as (o & n' & -> & Ho' & Hn').
      eexists _, _. split; [done|]. split; [done|]. congruence.
    + by destruct (Ho e).
    + by eexists _, _.
Qed.
End Parse.

(** C10. On an automaton without start state, [parse_string] raises
    ([StopIteration], from drawing a start state out of the empty set)
    on every input, whatever the fuel, and so never returns a pair. On
    an automaton with a start state, [parse_string] raises on no
    input. *)
Theorem parse_string_needs_start (n : t) :
  (_start_states n = ∅ →
   ∀ fuel s, (parse_string fuel s n).1 = Raise StopIteration) ∧
  (_start_states n ≠ ∅ →
   ∀ fuel s e, (parse_string fuel s n).1 ≠ Raise e).
Proof.
  split.
  - intros Hempty fuel s. unfold parse_string, bind, get.
    rewrite Hempty, elements_empty. simpl.
    unfold next_start_state, bind, get.
    by rewrite Hempty, elements_empty.
  - intros Hne fuel s e. unfold parse_string, bind at 1, get.
    unfold bind at 1.
    destruct (parse_starts_no_raise s fuel (elements (_start_states n)) n)
      as (o & n' & -> & Ho & Hn').
    destruct o as [[state|]|e'|]; simpl; [done| |by destruct (Ho e')|done].
    unfold next_start_state, bind, get. rewrite Hn'.
    destruct (elements (_start_states n)) as [|q l] eqn:Hel; [|done].
    apply elements_empty_inv in Hel. destruct Hne. by apply leibniz_equiv.
Qed.

(** Both halves of C10 on small automata: [NFA({'a'})] has no start
    state; adding one makes the parser return. *)
Lemma parse_string_needs_start_witness :
  (parse_string 3 "a" (init {["a"]})).1 = Raise StopIteration ∧
  (parse_string 3 "a" (add_start_state (mkState "p") (init {["a"]})).2).1
    ≠ Raise StopIteration.
Proof.
  split.
  - apply (proj1 (parse_string_needs_start (init {["a"]}))).
    reflexivity.
  - apply (proj2 (parse_string_needs_start
                    (add_start_state (mkState "p") (init {["a"]})).2)).
    vm_compute. discriminate.
Defined.

(** C3. On the automaton [trailing] the empty string has an accepting
    run, from the start state [p] over the epsilon transition to the
    accept state [q]; [parse_string] does not follow an epsilon
    transition once the input is consumed and returns the start state
    with [false]. *)
Theorem parse_string_misses_trailing_epsilon (fuel : nat) :
  (parse_string (S fuel) EmptyString trailing).1
    = Return (mkState "p", false) ∧
  accepts trailing EmptyString.
Proof.
  split.
  - destruct fuel; vm_compute; reflexivity.
  - exists (mkState "p"), (mkState "q"). split_and!.
    + vm_compute; reflexivity.
    + apply run_epsilon with (mkState "q"); [|constructor].
      eexists _, _. split_and!; vm_compute; reflexivity.
    + vm_compute; reflexivity.
Qed.

(** On an epsilon cycle the work stack never runs empty while input
    remains: parsing [a] on [looping] exhausts every fuel, although the
    automaton accepts no run over [a] and the answer is [false]. *)
Lemma parse_string_epsilon_cycle (fuel : nat) :
  (parse_string fuel "a" looping).1 = OutOfFuel.
Proof.
  assert (parse_while fuel "a" [(mkState "p", 0)] looping
          = (OutOfFuel, looping)) as H.
  { induction fuel as [|fuel IH]; [vm_compute; reflexivity|].
    vm_compute in IH |- *. exact IH. }
  unfold parse_string, bind, get.
  replace (elements (_start_states looping)) with [mkState "p"]
    by (vm_compute; reflexivity).
  simpl. unfold bind. by rewrite H.
Qed.

Lemma no_edge_lone q a q' : ¬ edge lone q a q'.
Proof. intros (m & S & Hm & _). vm_compute in Hm. discriminate. Qed.

(** C8. On the automaton [lone] the state [p] has no outgoing epsilon
    transition, so that the states reachable from [p] over epsilon
    edges are [p] alone; [_epsilon_closure] indexes the transitions of
    [p] by the empty symbol and raises [KeyError]. *)
Theorem epsilon_closure_raises (fuel : nat) :
  (_epsilon_closure (S fuel) (mkState "p") lone).1 = Raise KeyError ∧
  (∀ q, epsilon_reachable lone (mkState "p") q ↔ q = mkState "p").
Proof.
  split.
  - vm_compute; reflexivity.
  - intros q. split.
    + intros H. destruct H as [|x y z Hed _]; [done|].
      by destruct (no_edge_lone _ _ _ Hed).
    + intros ->. apply rtc_refl.
Qed.

(** C1. On the automaton [looping], which accepts the empty string,
    [to_dfa] returns no automaton: the first assignment
    [transitions[r][a] = set()] indexes the empty dictionary
    [transitions] and raises [KeyError]. *)
Theorem to_dfa_raises (fuel : nat) :
  (to_dfa (S fuel) looping).1 = Raise KeyError ∧
  (parse_string (S fuel) EmptyString looping).1
    = Return (mkState "p", true).
Proof. split; destruct fuel; vm_compute; reflexivity. Qed.

(** *** The subset construction on any automaton *)

Lemma transitions_getitem_alphabet q n :
  alphabet (transitions_getitem q n).2 = alphabet n.
Proof. unfold transitions_getitem. by destruct (_transitions n !! q). Qed.

Lemma transition_alphabet q a n : alphabet (transition q a n).2 = alphabet n.
Proof.
  unfold transition. apply bind_preserves.
  - apply transitions_getitem_alphabet.
  - intros m σ. by destruct (od_lookup a m).
Qed.

Lemma closure_while_alphabet fuel :
  ∀ closure_set stack n,
    alphabet (closure_while fuel closure_set stack n).2 = alphabet n.
Proof.
  induction fuel as [|fuel IH]; intros closure_set [|state stack] n;
    simpl; try done.
  apply bind_preserves; [apply transition_alphabet|].
  intros to_states σ. apply IH.
Qed.

Lemma add_transition_alphabet q1 q2 a n :
  alphabet (add_transition q1 q2 a n).2 = alphabet n.
Proof.
  unfold add_transition. apply bind_preserves; [done|].
  intros n0 σ. destruct (_ && _); [done|].
  apply bind_preserves; [apply transitions_getitem_alphabet|].
  intros m σ'. by destruct (od_lookup a _).
Qed.

Lemma add_fresh_start_alphabet n :
  alphabet (add_fresh_start n).2 = alphabet n.
Proof.
  unfold add_fresh_start. apply bind_preserves; [done|].
  intros _ σ. apply bind_preserves; [done|].
  intros cpy σ'. apply bind_preserves; [|done].
  apply for_each_preserves. intros q [] σ0. apply add_transition_alphabet.
Qed.

(** The first row of the subset construction is the empty tuple, and
    its first symbol already fails. *)
Lemma subset_rows_raise fuel rest n :
  alphabet n ≠ ∅ →
  (for_each ([] :: rest) (subset_row fuel) (∅, ∅) n).1 = Raise KeyError.
Proof.
  intros Hne. simpl. unfold bind at 1, subset_row at 1, bind at 1, get.
  destruct (elements (alphabet n)) as [|a l] eqn:Hel.
  { apply elements_empty_inv in Hel. destruct Hne. by apply leibniz_equiv. }
  simpl. unfold bind at 2, subset_symbol at 1, bind at 2, subset_reset.
  by rewrite lookup_empty.
Qed.

Lemma power_set_head (q : list State) : ∃ rest, _power_set q = [] :: rest.
Proof.
  unfold _power_set. simpl. destruct q as [|x q]; simpl; by eexists.
Qed.

Lemma to_dfa_body_never_returns fuel q_prime n :
  alphabet n ≠ ∅ → (∃ rest, q_prime = [] :: rest) →
  ∀ d, (to_dfa_body fuel q_prime n).1 ≠ Return d.
Proof.
  intros Hne [rest ->] d. unfold to_dfa_body.
  unfold bind at 1, next_start_state, bind at 1, get.
  destruct (elements (_start_states n)) as [|q0 l]; [done|].
  cbn [ret fst snd]. unfold bind at 1.
  pose proof (closure_while_alphabet fuel {[q0]} [q0] n) as Hal.
  unfold _epsilon_closure.
  destruct (closure_while fuel {[q0]} [q0] n) as [[q0_prime|e|] n1];
    cbn [fst snd] in *; [|done..].
  unfold bind at 1.
  pose proof (subset_rows_raise fuel rest n1) as Hrows.
  destruct (for_each ([] :: rest) (subset_row fuel) (∅, ∅) n1)
    as [[vars|e|] n2]; cbn [fst snd] in *; [|done..].
  rewrite Hal in Hrows. by specialize (Hrows Hne).
Qed.

(** On every automaton whose alphabet is not empty, [to_dfa] returns no
    automaton, whatever the fuel: it raises, or the epsilon closure of
    the start state has not finished. *)
Lemma to_dfa_never_returns fuel n :
  alphabet n ≠ ∅ → ∀ d, (to_dfa fuel n).1 ≠ Return d.
Proof.
  intros Hne d. unfold to_dfa. case_bool_decide; simpl.
  - unfold bind.
    pose proof (add_fresh_start_alphabet n) as Hal.
    destruct (add_fresh_start n) as [[[]|e|] cpy]; simpl in *; [|done..].
    apply to_dfa_body_never_returns; [by rewrite Hal|apply power_set_head].
  - apply to_dfa_body_never_returns; [done|apply power_set_head].
Qed.

End NFAFacts.

(** ** The deterministic automaton: the other methods *)

Module AutomatonMore.
Import Automaton AutomatonFacts.

Lemma transition_run d q a :
  transition q a d =
    match _transitions d !! q with
    | Some m =>
        (match m !! a with Some r => Return r | None => Raise KeyError end, d)
    | None => (Raise KeyError, set_transitions (insert q ∅) d)
    end.
Proof.
  unfold transition, bind, transitions_getitem.
  destruct (_transitions d !! q) as [m|]; simpl.
  - by destruct (m !! a).
  - by rewrite lookup_empty.
Qed.

Lemma delta_insert_empty d q q' b :
  _transitions d !! q = None →
  delta (set_transitions (insert q ∅) d) q' b = delta d q' b.
Proof.
  intros Hq. unfold delta; simpl. destruct (decide (q' = q)) as [->|Hne].
  - rewrite lookup_insert_eq, Hq. simpl. by rewrite lookup_empty.
  - by rewrite lookup_insert_ne.
Qed.

(** X1. [transition] returns the target that the table records and
    raises [KeyError] exactly when the table records none. Whenever
    [transition_exists] has answered [True], [transition] returns a state
    of the automaton and leaves the automaton as it was. In every case
    the transitions of the automaton are the same after the call, although
    a call on a state without a row inserts an empty row for it. *)
Theorem transition_guarded (d : t) (q : State) (a : string) :
  (∀ r, (transition q a d).1 = Return r ↔ delta d q a = Some r) ∧
  ((transition q a d).1 = Raise KeyError ↔ delta d q a = None) ∧
  ((transition_exists q a d).1 = Return true →
   ∃ r, transition q a d = (Return r, d) ∧ r ∈ states d) ∧
  (∀ q' b, delta (transition q a d).2 q' b = delta d q' b) ∧
  (_transitions d !! q = None →
   _transitions (transition q a d).2 !! q = Some ∅).
Proof.
  rewrite transition_exists_run, transition_run. unfold delta.
  destruct (_transitions d !! q) as [m|] eqn:Hq; simpl.
  - destruct (m !! a) as [r|] eqn:Ha; simpl; split_and!; try done.
    + intros r'. split; congruence.
    + intros [= Hr%bool_decide_eq_true]. by exists r.
  - split_and!; try done.
    + intros q' b. exact (delta_insert_empty d q q' b Hq).
    + intros _. by rewrite lookup_insert_eq.
Qed.

(** After [add_transition(p, q, a)] on the automaton over [{a}] with
    the single state [p], the guard answers [True] and the transition is
    taken. *)
Lemma transition_guarded_witness :
  let d := (add_transition (mkState "p") (mkState "q") "a"
              (init {["a"]} (mkState "p"))).2 in
  ∃ r, transition (mkState "p") "a" d = (Return r, d) ∧ r ∈ states d.
Proof.
  intros d.
  apply (proj1 (proj2 (proj2 (transition_guarded d (mkState "p") "a")))).
  vm_compute. reflexivity.
Defined.

(** X2. After a call [add_transition(q1, q2, a)] with [a] in the
    alphabet, [transition_exists(q1, a)] answers [True] and
    [transition(q1, a)] returns [q2], both leaving the automaton as the
    call made it. *)
Theorem add_then_transition (d : t) (q1 q2 : State) (a : string) :
  a ∈ _alphabet d →
  let d' := (add_transition q1 q2 a d).2 in
  transition_exists q1 a d' = (Return true, d') ∧
  transition q1 a d' = (Return q2, d').
Proof.
  intros Ha d'.
  destruct (add_transition_step d q1 q2 a Ha)
    as (d1 & Hrun & _ & _ & _ & _ & Hst & Hdelta).
  assert (d' = d1) as -> by (unfold d'; by rewrite Hrun).
  assert (delta d1 q1 a = Some q2) as Hd.
  { rewrite Hdelta. by rewrite decide_True. }
  split.
  - rewrite transition_exists_run, Hd.
    rewrite bool_decide_eq_true_2; [done|]. rewrite Hst.
    apply elem_of_union. right. apply elem_of_union. right.
    by apply elem_of_singleton.
  - by apply transition_defined.
Qed.

Lemma add_then_transition_witness :
  let d' := (add_transition (mkState "p") (mkState "q") "a"
               (init {["a"]} (mkState "p"))).2 in
  transition_exists (mkState "p") "a" d' = (Return true, d') ∧
  transition (mkState "p") "a" d' = (Return (mkState "q"), d').
Proof.
  apply (add_then_transition (init {["a"]} (mkState "p"))).
  vm_compute. reflexivity.
Defined.

Lemma add_transition_keeps_well_formed d q1 q2 a :
  well_formed d → well_formed (add_transition q1 q2 a d).2.
Proof.
  intros [Hstart Htr]. destruct (decide (a ∈ _alphabet d)) as [Ha|Ha].
  - destruct (add_transition_step d q1 q2 a Ha)
      as (d' & -> & Hal & Hst & _ & _ & Hstates & Hdelta). simpl.
    split.
    + rewrite Hst, Hstates. apply elem_of_union. by left.
    + intros q b r. rewrite Hdelta, Hstates, Hal. case_decide as Heq.
      * injection Heq as -> ->. intros [= <-]. split_and!; [| |done].
        -- apply elem_of_union. right. apply elem_of_union. left.
           by apply elem_of_singleton.
        -- apply elem_of_union. right. apply elem_of_union. right.
           by apply elem_of_singleton.
      * intros Hd. destruct (Htr q b r Hd) as (? & ? & ?).
        split_and!; [| |done]; apply elem_of_union; by left.
  - by rewrite add_transition_out.
Qed.

Lemma init_well_formed alphabet start : well_formed (init alphabet start).
Proof.
  split; [simpl; by apply elem_of_singleton|].
  intros q a r. unfold delta; simpl. by rewrite lookup_empty.
Qed.

(** X3. Every automaton obtained from [Automaton(alphabet, start)] by
    calls of [add_transition], whether they raise or not, keeps the
    invariants of the data model: the start state is a state, and every
    transition goes from a state to a state on a letter of the
    alphabet. *)
Theorem after_calls_well_formed (alphabet : gset string) (start : State)
    (calls : list (State * State * string)) :
  well_formed (after_calls calls (init alphabet start)).
Proof.
  assert (well_formed (init alphabet start)) as Hinit.
  { split; [simpl; by apply elem_of_singleton|].
    intros q a r. unfold delta; simpl. by rewrite lookup_empty. }
  revert Hinit. generalize (init alphabet start).
  induction calls as [|c calls IH]; intros d Hd; simpl; [done|].
  apply IH. by apply add_transition_keeps_well_formed.
Qed.

Lemma find_letter_spec q row :
  match find_letter q row with
  | Some a => (a, q) ∈ row
  | None => ∀ a, (a, q) ∉ row
  end.
Proof.
  induction row as [|[b r] row IH]; simpl.
  - intros a. apply not_elem_of_nil.
  - case_bool_decide as Hr.
    + subst r. by left.
    + destruct (find_letter q row) as [a|].
      * by right.
      * intros a [[= -> ->]|Hin]%elem_of_cons; [done|]. by apply (IH a).
Qed.

(** The search, over the items of the table in any order. *)
Lemma find_row_enumerated d items q :
  enumerates d items →
  match find_row q items with
  | Some (qf, a) => delta d qf a = Some q
  | None => ∀ qf a, delta d qf a ≠ Some q
  end.
Proof.
  intros Henum.
  assert (match find_row q items with
          | Some (qf, a) => ∃ row, (qf, row) ∈ items ∧ (a, q) ∈ row
          | None => ∀ qf row a, (qf, row) ∈ items → (a, q) ∉ row
          end) as Hfind.
  { clear Henum. induction items as [|[qf row] items IH]; simpl.
    - intros qf row a []%elem_of_nil.
    - pose proof (find_letter_spec q row) as Hrow.
      destruct (find_letter q row) as [a|].
      + exists row. split; [by left|done].
      + destruct (find_row q items) as [[qf' a']|].
        * destruct IH as (row' & ? & ?). exists row'. split; [by right|done].
        * intros qf' row' a' [[= -> ->]|Hin]%elem_of_cons; [done|].
          by apply (IH qf' row' a'). }
  destruct (find_row q items) as [[qf a]|].
  - by apply Henum.
  - intros qf a [row [Hin Hrow]]%Henum. by apply (Hfind qf row a).
Qed.

Lemma table_items_enumerates d : enumerates d (table_items d).
Proof.
  intros qf a r. unfold delta, table_items. split.
  - destruct (_transitions d !! qf) as [m|] eqn:Hq; simpl; [|done].
    intros Ha. exists (map_to_list m). split.
    + apply list_elem_of_fmap. exists (qf, m). split; [done|].
      by apply elem_of_map_to_list.
    + by apply elem_of_map_to_list.
  - intros (row & (item & [= -> ->] & Hitem)%list_elem_of_fmap & Hrow).
    destruct item as [qf' m]. apply elem_of_map_to_list in Hitem.
    simpl in *. rewrite Hitem. simpl. by apply elem_of_map_to_list.
Qed.

(** X4. [find_transition_to_q(q)] leaves the automaton as it was and
    returns a state and a letter whose transition leads to [q]; it
    returns [(None, None)] only when no transition leads to [q]. *)
Theorem find_transition_to_q_spec (d : t) (q : State) :
  (find_transition_to_q q d).2 = d ∧
  ∃ found,
    (find_transition_to_q q d).1 = Return found ∧
    match found with
    | Some (qf, a) => delta d qf a = Some q
    | None => ∀ qf a, delta d qf a ≠ Some q
    end.
Proof.
  split; [done|]. exists (find_row q (table_items d)). split; [done|].
  apply find_row_enumerated, table_items_enumerates.
Qed.

Lemma parse_run_copy d q l :
  parse_run (mk (mkState epsilon) (_alphabet d) (states d)
               (accept_states d) (reject_states d) (_transitions d)) q l
  = parse_run d q l.
Proof.
  revert q. induction l as [|a l IH]; intros q; simpl; [done|].
  unfold delta; simpl. destruct (_transitions d !! q ≫= (.!! a)); [|done].
  by rewrite IH.
Qed.

(** X5. [copy] leaves the automaton as it was and returns an automaton
    with the same alphabet, states, accept states, reject states and
    table, whose start state is [State('')]: parsing a string with the
    copy is parsing it with the original from [State('')], and the copy
    equals the original exactly when the original starts at
    [State('')]. *)
Theorem copy_starts_at_empty_label (d : t) (s : string) :
  ∃ c,
    copy d = (Return c, d) ∧
    _start_state c = mkState epsilon ∧
    _alphabet c = _alphabet d ∧
    states c = states d ∧
    accept_states c = accept_states d ∧
    reject_states c = reject_states d ∧
    _transitions c = _transitions d ∧
    (parse_string s c).1 = (parse_from (mkState epsilon) (letters s) d).1 ∧
    (c = d ↔ _start_state d = mkState epsilon).
Proof.
  eexists. split; [done|]. split_and!; try done.
  - rewrite parse_string_run, parse_from_run. simpl.
    by rewrite parse_run_copy.
  - destruct d as [q0 al st ac rj tr]; simpl. split.
    + by intros [= <-].
    + by intros ->.
Qed.

Lemma well_formed_targets d : well_formed d → targets_registered d.
Proof. intros [_ Hwf] q a r Hd. by destruct (Hwf q a r Hd) as (_ & ? & _). Qed.

End AutomatonMore.

(** ** Reachability minimisation: the search *)

Module MinimizeMore.
Import Automaton AutomatonFacts.

(** One iteration of the loop over the letters, for a letter of the
    alphabet. *)
Lemma minimize_letter_run d state a m stack visited :
  _alphabet m = _alphabet d → a ∈ _alphabet d →
  minimize_letter state a (m, stack, visited) d =
    (Return
       match delta d state a with
       | Some r =>
           ((add_transition state r a m).2,
            if bool_decide (r ∈ visited) then stack else r :: stack,
            if bool_decide (r ∈ visited) then visited
            else visited ∪ {[r]})
       | None => (m, stack, visited)
       end, d).
Proof.
  intros Hal Ha. unfold minimize_letter, bind at 1, get.
  destruct (delta d state a) as [r|] eqn:Hd.
  - pose proof Hd as Hd'. unfold delta in Hd'.
    destruct (_transitions d !! state) as [row|] eqn:Hq; simpl in Hd';
      [|done].
    rewrite bool_decide_eq_true_2 by (apply elem_of_dom; eauto).
    unfold bind at 1. rewrite (transitions_getitem_present _ _ _ Hq).
    rewrite bool_decide_eq_true_2 by (apply elem_of_dom; eauto).
    unfold bind at 1. rewrite (transition_defined _ _ _ _ Hd).
    unfold bind at 1, call.
    rewrite add_transition_in by (by rewrite Hal). simpl.
    by case_bool_decide.
  - unfold delta in Hd.
    destruct (_transitions d !! state) as [row|] eqn:Hq; simpl in Hd.
    + rewrite bool_decide_eq_true_2 by (apply elem_of_dom; eauto).
      unfold bind at 1. rewrite (transitions_getitem_present _ _ _ Hq).
      rewrite bool_decide_eq_false_2; [done|].
      rewrite elem_of_dom, Hd. by intros [? ?].
    + rewrite bool_decide_eq_false_2; [done|].
      rewrite elem_of_dom, Hq. by intros [? ?].
Qed.

Lemma minimize_inv_iff d m stack visited popped classified done done' :
  (∀ q a, done q a ↔ done' q a) →
  minimize_inv d m stack visited popped classified done →
  minimize_inv d m stack visited popped classified done'.
Proof.
  intros Hiff [].
  split; try done.
  - intros q a Hd. by apply inv_done0, Hiff.
  - intros q a r Hd. by apply inv_closed0, Hiff.
  - intros q. rewrite inv_states0. by setoid_rewrite Hiff.
  - intros q a r. by rewrite inv_delta0, Hiff.
Qed.

Lemma reachable_step d q r : reachable d q → step d q r → reachable d r.
Proof. intros Hq Hs. by eapply rtc_r. Qed.

(** The invariant over one letter of the popped state [state]. *)
Lemma letter_step d m stack visited popped classified done state a :
  minimize_inv d m stack visited popped classified done →
  state ∈ popped → reachable d state → a ∈ _alphabet d →
  ∃ vars,
    minimize_letter state a (m, stack, visited) d = (Return vars, d) ∧
    minimize_inv d vars.1.1 vars.1.2 vars.2 popped classified
      (λ q b, done q b ∨ (q = state ∧ b = a)).
Proof.
  intros Hinv Hstate Hreach Ha. pose proof Hinv as [].
  rewrite minimize_letter_run by done. eexists; split; [done|].
  destruct (delta d state a) as [r|] eqn:Hd; simpl.
  - destruct (add_transition_step m state r a)
      as (m' & -> & Hal & Hst & Hacc & Hrej & Hstates & Hdelta);
      [by rewrite inv_alphabet0|]. simpl.
    assert (reachable d r) as Hr.
    { apply reachable_step with state; [done|]. by exists a. }
    assert (∀ q, q ∈ states m' ↔
              q = mkState epsilon ∨ q ∈ popped ∨
              ∃ p b, (done p b ∨ p = state ∧ b = a) ∧ delta d p b = Some q)
      as Hstates'.
    { intros q. rewrite Hstates, !elem_of_union, !elem_of_singleton,
        inv_states0. split.
      - intros [[?|[?|(p & b & ? & ?)]]|[->| ->]]; eauto 8.
      - intros [?|[?|(p & b & [?|[-> ->]] & Hq)]]; eauto 8.
        right. right. congruence. }
    assert (∀ q b x, delta m' q b = Some x ↔
              (done q b ∨ q = state ∧ b = a) ∧ delta d q b = Some x)
      as Hdelta'.
    { intros q b x. rewrite Hdelta. case_decide as Heq.
      - injection Heq as -> ->. rewrite Hd. split; [|by intros [_ ?]].
        intros ?. split; [|done]. by right.
      - rewrite inv_delta0. split.
        + intros [? ?]. split; [by left|done].
        + intros [[?|[-> ->]] ?]; [done|]. by destruct Heq. }
    assert (∀ q b, done q b ∨ q = state ∧ b = a →
              q ∈ popped ∧ b ∈ _alphabet d) as Hdone'.
    { intros q b [?|[-> ->]]; [by apply inv_done0|done]. }
    rewrite <- Hacc in inv_accept0. rewrite <- Hrej in inv_reject0.
    case_bool_decide as Hvis; split; simpl; try done; try congruence.
    + intros q b x [?|[-> ->]] Hx; [by eapply inv_closed0|]. congruence.
    + apply NoDup_cons. split; [|done].
      intros Hin. apply Hvis, inv_visited0. by left.
    + intros x. rewrite elem_of_union, elem_of_singleton, elem_of_cons,
        inv_visited0. tauto.
    + intros x [->|Hx]%elem_of_cons; [|by apply inv_stack0].
      intros Hin. apply Hvis, inv_visited0. by right.
    + apply elem_of_union. by left.
    + intros q b x Hdn Hx. apply elem_of_union.
      destruct Hdn as [?|[-> ->]]; [left; by eapply inv_closed0|].
      right. apply elem_of_singleton. congruence.
    + intros x [?| ->%elem_of_singleton]%elem_of_union;
        [by apply inv_reachable0|done].
  - split; simpl; try done.
    + intros q b [?|[-> ->]]; [by apply inv_done0|done].
    + intros q b x [?|[-> ->]] Hx; [by eapply inv_closed0|congruence].
    + intros q. rewrite inv_states0. split.
      * intros [?|[?|(p & b & ? & ?)]]; eauto 8.
      * intros [?|[?|(p & b & [?|[-> ->]] & Hq)]]; eauto 8. congruence.
    + intros q b x. rewrite inv_delta0. split.
      * intros [? ?]. split; [by left|done].
      * intros [[?|[-> ->]] ?]; [done|congruence].
Qed.

(** The invariant over the loop over the letters. *)
Lemma letters_loop d m stack visited popped classified done state :
  minimize_inv d m stack visited popped classified done →
  state ∈ popped → reachable d state →
  ∃ vars,
    for_each (elements (_alphabet d)) (minimize_letter state)
      (m, stack, visited) d = (Return vars, d) ∧
    minimize_inv d vars.1.1 vars.1.2 vars.2 popped classified
      (λ q b, done q b ∨ (q = state ∧ b ∈ _alphabet d)).
Proof.
  intros Hinv Hst Hreach.
  destruct (for_each_invariant
              (λ letters vars σ,
                 σ = d ∧
                 minimize_inv d vars.1.1 vars.1.2 vars.2 popped classified
                   (λ q b, done q b ∨ (q = state ∧ b ∈ letters)))
              (minimize_letter state) (elements (_alphabet d)))
    with (b := (m, stack, visited)) (σ := d)
    as (vars & σ' & Hrun & -> & Hinv').
  - intros letters a [[m1 st1] vis1] σ [-> Hi] Hin.
    apply elem_of_elements in Hin.
    destruct (letter_step d m1 st1 vis1 popped classified _ state a
                Hi Hst Hreach Hin) as (vars & Hrun & Hi').
    exists vars, d. split; [done|]. split; [done|].
    eapply minimize_inv_iff; [|exact Hi']. intros q b. simpl.
    rewrite elem_of_app, list_elem_of_singleton. tauto.
  - split; [done|]. simpl. eapply minimize_inv_iff; [|exact Hinv].
    intros q b. split; [by left|].
    by intros [?|[_ []%elem_of_nil]].
  - exists vars. split; [done|].
    eapply minimize_inv_iff; [|exact Hinv']. intros q b. simpl.
    by rewrite elem_of_elements.
Qed.

(** The invariant over one iteration of the search. *)
Lemma iteration d m state stack visited P :
  minimize_inv d m (state :: stack) visited P P
    (λ q a, q ∈ P ∧ a ∈ _alphabet d) →
  (state ∉ P) ∧ reachable d state ∧
  ∃ vars,
    for_each (elements (_alphabet d)) (minimize_letter state)
      (set_states (λ Q, Q ∪ {[state]}) m, stack, visited) d
      = (Return vars, d) ∧
    minimize_inv d (classify d state vars.1.1) vars.1.2 vars.2
      (P ∪ {[state]}) (P ∪ {[state]})
      (λ q a, q ∈ P ∪ {[state]} ∧ a ∈ _alphabet d).
Proof.
  intros Hinv. pose proof Hinv as [].
  assert (state ∉ P) as HnP by (apply inv_stack0; by left).
  assert (reachable d state) as Hreach.
  { apply inv_reachable0, inv_visited0. left. by left. }
  split; [done|]. split; [done|].
  apply NoDup_cons in inv_nodup0 as [Hnin Hnodup].
  assert (minimize_inv d (set_states (λ Q, Q ∪ {[state]}) m) stack visited
            (P ∪ {[state]}) P (λ q a, q ∈ P ∧ a ∈ _alphabet d)) as Hpop.
  { split; simpl; try done.
    - intros x. rewrite inv_visited0, elem_of_cons, elem_of_union,
        elem_of_singleton. tauto.
    - intros x Hx [?| ->%elem_of_singleton]%elem_of_union; [|done].
      apply (inv_stack0 x); [by right|done].
    - intros q a [? ?]. split; [|done]. apply elem_of_union. by left.
    - intros q. rewrite !elem_of_union, elem_of_singleton, inv_states0.
      tauto. }
  destruct (letters_loop d _ stack visited _ P _ state Hpop)
    as ([[m1 st1] vis1] & Hrun & Hinv1); [|done|].
  { apply elem_of_union. right. by apply elem_of_singleton. }
  eexists; split; [exact Hrun|]. simpl in *.
  assert (minimize_inv d m1 st1 vis1 (P ∪ {[state]}) P
            (λ q a, q ∈ P ∪ {[state]} ∧ a ∈ _alphabet d)) as Hinv2.
  { eapply minimize_inv_iff; [|exact Hinv1]. intros q a. simpl.
    rewrite elem_of_union, elem_of_singleton. tauto. }
  clear Hinv1 Hpop Hinv. destruct Hinv2. unfold classify.
  case_bool_decide as Hacc; [|case_bool_decide as Hrej];
    split; simpl; try done.
  - intros q. rewrite !elem_of_union, elem_of_singleton, inv_accept1.
    split; [|by intros [[?|?] ?]; auto].
    intros [[? ?]| ->]; auto.
  - intros q. rewrite inv_reject1, elem_of_union, elem_of_singleton.
    split; [intros (? & ? & ?); auto|].
    intros ([?| ->] & Hn & ?); [done|]. by destruct Hn.
  - intros q. rewrite inv_accept1, elem_of_union, elem_of_singleton.
    split; [intros [? ?]; auto|]. intros [[?| ->] ?]; done.
  - intros q. rewrite !elem_of_union, elem_of_singleton, inv_reject1.
    split; [|by intros ([?|?] & ? & ?); auto].
    intros [(? & ? & ?)| ->]; auto.
  - intros q. rewrite inv_accept1, elem_of_union, elem_of_singleton.
    split; [intros [? ?]; auto|]. intros [[?| ->] ?]; done.
  - intros q. rewrite inv_reject1, elem_of_union, elem_of_singleton.
    split; [intros (? & ? & ?); auto|].
    intros ([?| ->] & ? & ?); done.
Qed.

Lemma minimize_loop_unfold fuel m state stack visited d :
  minimize_loop (S fuel) m (state :: stack) visited d =
    match for_each (elements (_alphabet d)) (minimize_letter state)
            (set_states (λ Q, Q ∪ {[state]}) m, stack, visited) d with
    | (Return vars, d') =>
        minimize_loop fuel (classify d' state vars.1.1) vars.1.2 vars.2 d'
    | (Raise e, d') => (Raise e, d')
    | (OutOfFuel, d') => (OutOfFuel, d')
    end.
Proof.
  simpl. unfold bind at 1, get. unfold bind at 1.
  destruct (for_each _ _ _ d) as [[[[m1 st1] vis1]|e|] d']; done.
Qed.

(** The search returns within as many iterations as there are states
    that it can reach, and the invariant holds of what it returns. *)
Lemma search_returns d (U : gset State) :
  (∀ x, reachable d x → x ∈ U) →
  ∀ fuel m stack visited P,
    minimize_inv d m stack visited P P (λ q a, q ∈ P ∧ a ∈ _alphabet d) →
    size U ≤ size P + fuel →
    ∃ m' visited' P',
      minimize_loop fuel m stack visited d = (Return m', d) ∧
      minimize_inv d m' [] visited' P' P'
        (λ q a, q ∈ P' ∧ a ∈ _alphabet d).
Proof.
  intros HU.
  assert (∀ m state stack visited P,
            minimize_inv d m (state :: stack) visited P P
              (λ q a, q ∈ P ∧ a ∈ _alphabet d) →
            size (P ∪ {[state]}) = S (size P) ∧ size P < size U) as Hgrow.
  { intros m state stack visited P Hinv.
    destruct (iteration d m state stack visited P Hinv)
      as (HnP & Hreach & _).
    assert (size (P ∪ {[state]}) = S (size P)) as Hsize.
    { rewrite size_union, size_singleton; [lia|].
      intros x Hx ->%elem_of_singleton. done. }
    split; [done|].
    assert (P ∪ {[state]} ⊆ U) as Hsub.
    { intros x [Hx| ->%elem_of_singleton]%elem_of_union; [|by apply HU].
      apply HU. destruct Hinv. apply inv_reachable0, inv_visited0.
      by right. }
    apply subseteq_size in Hsub. lia. }
  induction fuel as [|fuel IH]; intros m stack visited P Hinv Hsize.
  - destruct stack as [|state stack]; [by exists m, visited, P|].
    destruct (Hgrow _ _ _ _ _ Hinv). lia.
  - destruct stack as [|state stack]; [by exists m, visited, P|].
    rewrite minimize_loop_unfold.
    destruct (iteration d m state stack visited P Hinv)
      as (_ & _ & vars & -> & Hinv').
    apply IH with (P := P ∪ {[state]}); [done|].
    destruct (Hgrow _ _ _ _ _ Hinv) as [-> _]. lia.
Qed.

Lemma initial_inv d :
  minimize_inv d (init (_alphabet d) (mkState epsilon)) [mkState epsilon]
    {[mkState epsilon]} ∅ ∅ (λ q a, q ∈ (∅ : gset State) ∧ a ∈ _alphabet d).
Proof.
  split; simpl; try done.
  - apply NoDup_singleton.
  - intros x. rewrite elem_of_singleton, list_elem_of_singleton,
      elem_of_empty. tauto.
  - by intros q a r [[]%elem_of_empty _].
  - intros x ->%elem_of_singleton. apply rtc_refl.
  - intros q. rewrite elem_of_singleton, elem_of_empty. split; [auto|].
    intros [?|[[]|(p & a & [[]%elem_of_empty _] & _)]]. done.
  - intros q a r. unfold delta; simpl. rewrite lookup_empty. simpl.
    split; [done|]. by intros [[[]%elem_of_empty _] _].
  - intros q. rewrite !elem_of_empty. tauto.
  - intros q. rewrite !elem_of_empty. tauto.
Qed.

(** Once the stack is empty, the popped states are the reachable
    ones. *)
Lemma searched_all d m visited P :
  minimize_inv d m [] visited P P (λ q a, q ∈ P ∧ a ∈ _alphabet d) →
  ∀ x, x ∈ P ↔ reachable d x.
Proof.
  intros []. 
  assert (∀ x, x ∈ visited → x ∈ P) as Hvis.
  { intros x [[]%elem_of_nil|?]%inv_visited0. done. }
  intros x. split.
  - intros Hx. apply inv_reachable0, inv_visited0. by right.
  - unfold reachable. revert x. apply rtc_ind_r; [by apply Hvis|].
    intros y z Hy (a & Ha & Hd) IH.
    apply Hvis. by apply (inv_closed0 y a z).
Qed.

(** What [minimize] returns, given fuel for every state that can be
    reached. *)
Lemma minimize_result d (U : gset State) fuel :
  (∀ x, reachable d x → x ∈ U) → size U ≤ fuel →
  ∃ m,
    minimize fuel d = (Return m, d) ∧
    _start_state m = mkState epsilon ∧
    _alphabet m = _alphabet d ∧
    (∀ q, q ∈ states m ↔ reachable d q) ∧
    (∀ q a r, delta m q a = Some r ↔
              reachable d q ∧ a ∈ _alphabet d ∧ delta d q a = Some r) ∧
    (∀ q, q ∈ accept_states m ↔ reachable d q ∧ q ∈ accept_states d) ∧
    (∀ q, q ∈ reject_states m ↔
          reachable d q ∧ (q ∉ accept_states d) ∧ q ∈ reject_states d).
Proof.
  intros HU Hfuel. unfold minimize, bind, get.
  destruct (search_returns d U HU fuel _ _ _ ∅ (initial_inv d))
    as (m & visited & P & -> & Hinv).
  { rewrite size_empty. lia. }
  exists m. split; [done|].
  pose proof (searched_all d m visited P Hinv) as HP. destruct Hinv.
  split_and!; try done.
  - intros q. rewrite inv_states0. split.
    + intros [->|[?|(p & a & [Hp Ha] & Hd)]].
      * apply rtc_refl.
      * by apply HP.
      * apply reachable_step with p; [by apply HP|]. by exists a.
    + intros ?. right. left. by apply HP.
  - intros q a r. rewrite inv_delta0, HP. tauto.
  - intros q. by rewrite inv_accept0, HP.
  - intros q. by rewrite inv_reject0, HP.
Qed.

Lemma reachable_registered d x :
  targets_registered d → reachable d x → x ∈ {[mkState epsilon]} ∪ states d.
Proof.
  intros Hreg Hreach. apply elem_of_union.
  apply rtc_inv_r in Hreach as [<-|(y & _ & a & _ & Hd)].
  - left. by apply elem_of_singleton.
  - right. by apply (Hreg y a x).
Qed.

Lemma classify_fields d state m :
  _alphabet (classify d state m) = _alphabet m ∧
  _start_state (classify d state m) = _start_state m.
Proof. unfold classify. by repeat case_bool_decide. Qed.

Lemma minimize_loop_safe d fuel :
  ∀ m stack visited,
    _alphabet m = _alphabet d →
    ∃ o, minimize_loop fuel m stack visited d = (o, d) ∧
         (∀ e, o ≠ Raise e) ∧
         (∀ m', o = Return m' →
                _alphabet m' = _alphabet d ∧
                _start_state m' = _start_state m).
Proof.
  induction fuel as [|fuel IH]; intros m stack visited Hal.
  - destruct stack as [|state stack]; simpl.
    + eexists; split; [done|]. split; [done|]. by intros m' [= <-].
    + by eexists.
  - destruct stack as [|state stack].
    { simpl. eexists; split; [done|]. split; [done|]. by intros m' [= <-]. }
    rewrite minimize_loop_unfold.
    destruct (for_each_invariant
                (λ _ vars σ,
                   σ = d ∧ _alphabet vars.1.1 = _alphabet d ∧
                   _start_state vars.1.1 = _start_state m)
                (minimize_letter state) (elements (_alphabet d)))
      with (b := (set_states (λ Q, Q ∪ {[state]}) m, stack, visited))
           (σ := d)
      as (vars & σ' & -> & -> & Hal1 & Hst1); [|done|].
    + intros _ a [[m1 st1] vis1] σ (-> & Ha1 & Hs1) Hin.
      apply elem_of_elements in Hin.
      rewrite minimize_letter_run by done.
      eexists _, d. split; [done|]. split; [done|].
      destruct (delta d state a) as [r|]; simpl in *; [|done].
      destruct (add_transition_step m1 state r a)
        as (m' & -> & Hal' & Hst' & _); [by rewrite Ha1|].
      simpl. split; congruence.
    + destruct (classify_fields d state vars.1.1) as [Hc1 Hc2].
      destruct (IH (classify d state vars.1.1) vars.1.2 vars.2)
        as (o & -> & Ho & Hm); [congruence|].
      exists o. split; [done|]. split; [done|].
      intros m' Hm'. destruct (Hm m' Hm') as [? ?]. split; congruence.
Qed.

(** X6. [minimize] leaves the automaton it is called on as it was and
    raises no exception, whatever the automaton and the fuel; an
    automaton that it returns has the alphabet of the original and the
    start state [State('')], whatever the start state of the original. *)
Theorem minimize_safe (d : t) (fuel : nat) :
  (minimize fuel d).2 = d ∧
  (∀ e, (minimize fuel d).1 ≠ Raise e) ∧
  (∀ m, (minimize fuel d).1 = Return m →
        _start_state m = mkState epsilon ∧ _alphabet m = _alphabet d).
Proof.
  unfold minimize, bind, get.
  destruct (minimize_loop_safe d fuel (init (_alphabet d) (mkState epsilon))
              [mkState epsilon] {[mkState epsilon]})
    as (o & -> & Ho & Hm); [done|].
  split; [done|]. split; [done|].
  intros m Hret. destruct (Hm m Hret) as [? ?]. done.
Qed.

(** X7. For an automaton whose transition targets are all states, and
    fuel for at least one iteration per state and one more, [minimize]
    returns an automaton whose states are exactly the states reachable
    from [State('')] along transitions on letters of the alphabet, whose
    transitions are those of the original that leave a reachable state
    on a letter of the alphabet, whose accept states are the reachable
    accept states, and whose reject states are the reachable reject
    states that are not accept states as well. *)
Theorem minimize_reachable (d : t) (fuel : nat) :
  targets_registered d →
  size ({[mkState epsilon]} ∪ states d) ≤ fuel →
  ∃ m,
    minimize fuel d = (Return m, d) ∧
    (∀ q, q ∈ states m ↔ reachable d q) ∧
    (∀ q a r, delta m q a = Some r ↔
              reachable d q ∧ a ∈ _alphabet d ∧ delta d q a = Some r) ∧
    (∀ q, q ∈ accept_states m ↔ reachable d q ∧ q ∈ accept_states d) ∧
    (∀ q, q ∈ reject_states m ↔
          reachable d q ∧ (q ∉ accept_states d) ∧ q ∈ reject_states d).
Proof.
  intros Hreg Hfuel.
  destruct (minimize_result d ({[mkState epsilon]} ∪ states d) fuel)
    as (m & Hrun & _ & _ & Hrest); [|done|by exists m].
  intros x. by apply reachable_registered.
Qed.

Lemma minimized_parse d m :
  well_formed d →
  (∀ q, q ∈ states m ↔ reachable d q) →
  (∀ q a r, delta m q a = Some r ↔
            reachable d q ∧ a ∈ _alphabet d ∧ delta d q a = Some r) →
  (∀ q, q ∈ accept_states m ↔ reachable d q ∧ q ∈ accept_states d) →
  ∀ l q, reachable d q → parse_run m q l = parse_run d q l.
Proof.
  intros [_ Hwf] Hstates Hdelta Hacc.
  induction l as [|a l IH]; intros q Hq; simpl.
  - f_equal. apply bool_decide_ext. rewrite Hacc. tauto.
  - destruct (delta d q a) as [r|] eqn:Hd.
    + destruct (Hwf q a r Hd) as (_ & Hr & Ha).
      assert (reachable d r) as Hreach.
      { apply reachable_step with q; [done|]. by exists a. }
      replace (delta m q a) with (Some r)
        by (symmetry; by apply Hdelta).
      rewrite !bool_decide_eq_true_2 by (done || by apply Hstates).
      by apply IH.
    + destruct (delta m q a) as [r|] eqn:Hm; [|done].
      apply Hdelta in Hm as (_ & _ & Hm). congruence.
Qed.

(** X8. For an automaton that keeps the invariants of the data model
    and starts at [State('')], [minimize] preserves the language: given
    fuel for one iteration per state and one more, it returns an
    automaton on which [parse_string] returns, for every string, the
    pair that it returns on the original. *)
Theorem minimize_preserves_language (d : t) (fuel : nat) :
  well_formed d →
  _start_state d = mkState epsilon →
  size ({[mkState epsilon]} ∪ states d) ≤ fuel →
  ∃ m,
    minimize fuel d = (Return m, d) ∧
    ∀ s, (parse_string s m).1 = (parse_string s d).1.
Proof.
  intros Hwf Hstart Hfuel.
  destruct (minimize_result d ({[mkState epsilon]} ∪ states d) fuel)
    as (m & Hrun & Hst & _ & Hstates & Hdelta & Hacc & _); [|done|].
  { intros x. by apply reachable_registered, AutomatonMore.well_formed_targets. }
  exists m. split; [done|]. intros s.
  rewrite !parse_string_run, Hst, Hstart. simpl. f_equal.
  apply (minimized_parse d m); try done. apply rtc_refl.
Qed.

(** The automaton over [{a}] that starts at [State('')] and has the
    single transition to [State('a')]: the search needs two
    iterations. *)
Lemma minimize_reachable_witness :
  let d := (add_transition (mkState epsilon) (mkState "a") "a"
              (init {["a"]} (mkState epsilon))).2 in
  ∃ m, minimize 2 d = (Return m, d) ∧
       (∀ q, q ∈ states m ↔ reachable d q).
Proof.
  intros d. destruct (minimize_reachable d 2) as (m & Hrun & Hst & _).
  - apply AutomatonMore.well_formed_targets.
    apply AutomatonMore.add_transition_keeps_well_formed.
    apply AutomatonMore.init_well_formed.
  - vm_compute. lia.
  - by exists m.
Defined.

Lemma minimize_preserves_language_witness :
  let d := (add_transition (mkState epsilon) (mkState "a") "a"
              (init {["a"]} (mkState epsilon))).2 in
  ∃ m, minimize 2 d = (Return m, d) ∧
       ∀ s, (parse_string s m).1 = (parse_string s d).1.
Proof.
  intros d. apply minimize_preserves_language.
  - apply AutomatonMore.add_transition_keeps_well_formed.
    apply AutomatonMore.init_well_formed.
  - reflexivity.
  - vm_compute. lia.
Defined.

End MinimizeMore.

(** ** The prefix-tree acceptor: parsing *)

Module PTAMore.
Import Automaton AutomatonFacts PTAFacts.

Lemma append_assoc (x y z : string) : (x +:+ y) +:+ z = x +:+ (y +:+ z).
Proof.
  induction x as [|c x IH]; [done|].
  change (String c ((x +:+ y) +:+ z) = String c (x +:+ (y +:+ z))).
  by rewrite IH.
Qed.

Lemma append_letter (u : string) c (w : string) :
  (u +:+ String c EmptyString) +:+ w = u +:+ String c w.
Proof. by rewrite append_assoc. Qed.

Lemma append_letter_nonempty (u : string) c :
  u +:+ String c EmptyString ≠ EmptyString.
Proof. by destruct u. Qed.

Lemma letters_app (x y : string) :
  letters (x +:+ y) = letters x ++ letters y.
Proof.
  induction x as [|c x IH]; [done|].
  change (String c EmptyString :: letters (x +:+ y)
          = String c EmptyString :: (letters x ++ letters y)).
  by rewrite IH.
Qed.

Lemma is_prefix_of_app samples (x y : string) :
  is_prefix_of samples (x +:+ y) → is_prefix_of samples x.
Proof.
  intros (w & v & Hw & ->). exists ((x +:+ y) +:+ v), (y +:+ v).
  split; [done|]. apply append_assoc.
Qed.

Lemma sample_is_prefix samples (w : string) :
  w ∈ samples → is_prefix_of samples w.
Proof. intros Hw. exists w, EmptyString. by rewrite append_empty_r. Qed.

(** The letters of a prefix of a sample are in the alphabet. *)
Lemma letter_of_prefix samples (u : string) c (w : string) :
  is_prefix_of samples (u +:+ String c w) →
  String c EmptyString ∈ determine_alphabet samples.
Proof.
  intros (y & v & Hy & ->). unfold determine_alphabet.
  apply elem_of_list_to_set, list_elem_of_bind.
  exists ((u +:+ String c w) +:+ v). split; [|by apply elem_of_elements].
  rewrite append_assoc, letters_app. apply elem_of_app. right.
  change (String c EmptyString
          ∈ String c EmptyString :: letters (w +:+ v)).
  by left.
Qed.

Section Parse.
Variables (s_plus s_minus : gset string) (pta : t) (P : gset State).

Hypothesis prefix_states :
  ∀ q, q ∈ P ↔ is_prefix_of (s_plus ∪ s_minus) (name q).

Hypothesis pta_linked_prefix :
  ∀ u a, is_prefix_of (s_plus ∪ s_minus) u →
         a ∈ determine_alphabet (s_plus ∪ s_minus) →
         delta pta (mkState u) a = Some (mkState (u +:+ a)) ∧
         mkState (u +:+ a) ∈ states pta.
Hypothesis pta_only_prefix :
  ∀ q a q', delta pta q a = Some q' →
            (q = mkState epsilon ∨ is_prefix_of (s_plus ∪ s_minus) (name q)) ∧
            a ∈ determine_alphabet (s_plus ∪ s_minus).
Hypothesis pta_accept : ∀ q, q ∈ accept_states pta ↔ name q ∈ s_plus.

Lemma positive_is_prefix (w : string) :
  w ∈ s_plus → is_prefix_of (s_plus ∪ s_minus) w.
Proof. intros Hw. apply sample_is_prefix, elem_of_union. by left. Qed.

(** Parsing from a state that is not a prefix stays there and
    rejects. *)
Lemma parse_from_leaf (u w : string) :
  u ≠ EmptyString → ¬ is_prefix_of (s_plus ∪ s_minus) u →
  parse_run pta (mkState u) (letters w) = (mkState u, false).
Proof using All.
  intros Hne Hu. destruct w as [|c w]; simpl.
  - f_equal. apply bool_decide_eq_false_2. rewrite pta_accept. simpl.
    intros Hin. by apply Hu, positive_is_prefix.
  - destruct (delta pta (mkState u) (String c EmptyString)) as [r|] eqn:Hd;
      [|done].
    destruct (pta_only_prefix _ _ _ Hd) as [[[= ?]|?] _]; done.
Qed.

Lemma parse_from_prefix (w : string) :
  ∀ u : string,
    u = EmptyString ∨ is_prefix_of (s_plus ∪ s_minus) u →
    ∃ q, parse_run pta (mkState u) (letters w)
           = (q, bool_decide (u +:+ w ∈ s_plus)) ∧
         (is_prefix_of (s_plus ∪ s_minus) (u +:+ w) →
          q = mkState (u +:+ w)).
Proof using All.
  induction w as [|c w IH]; intros u Hu.
  - exists (mkState u). rewrite append_empty_r. simpl. split; [|done].
    f_equal. apply bool_decide_ext. by rewrite pta_accept.
  - change (letters (String c w))
      with (String c EmptyString :: letters w).
    simpl parse_run. set (a := String c EmptyString).
    destruct (decide (a ∈ determine_alphabet (s_plus ∪ s_minus)))
      as [Ha|Ha].
    + assert (is_prefix_of (s_plus ∪ s_minus) u) as Hpre.
      { destruct Hu as [->|?]; [|done].
        by apply determine_alphabet_inhabited in Ha. }
      destruct (pta_linked_prefix u a Hpre Ha) as [-> Hin].
      rewrite bool_decide_eq_true_2 by done.
      rewrite <- (append_letter u c w). fold a.
      assert (Decision (is_prefix_of (s_plus ∪ s_minus) (u +:+ a)))
        as [Hua|Hua].
      { destruct (decide (mkState (u +:+ a) ∈ P)) as [Hin'|Hin'];
          [left|right]; by rewrite <- (prefix_states (mkState (u +:+ a))). }
      * apply IH. by right.
      * exists (mkState (u +:+ a)).
        rewrite parse_from_leaf
          by (done || apply append_letter_nonempty).
        split.
        -- f_equal. symmetry. apply bool_decide_eq_false_2.
           intros Hin'. by apply Hua, is_prefix_of_app with w,
             positive_is_prefix.
        -- intros Hp. destruct Hua. by apply is_prefix_of_app with w.
    + exists (mkState u).
      destruct (delta pta (mkState u) a) as [r|] eqn:Hd.
      { by destruct (pta_only_prefix _ _ _ Hd) as [_ ?]. }
      split.
      * f_equal. symmetry. apply bool_decide_eq_false_2.
        intros Hin. apply Ha. apply (letter_of_prefix _ u c w).
        by apply positive_is_prefix.
      * intros Hp. destruct Ha. by apply (letter_of_prefix _ u c w).
Qed.
End Parse.


(** X9. The automaton that [build_pta] returns accepts exactly the
    positive samples: on every string [w], [parse_string] returns the
    truth of [w ∈ S+]. When [w] is a prefix of a sample, the state
    returned is [State(w)]; so a negative sample ends in one of the
    reject states. *)
Theorem pta_accepts_positive_samples (s_plus s_minus : gset string)
    (w : string) :
  ∃ pta q,
    build_pta s_plus s_minus = Return pta ∧
    (parse_string w pta).1 = Return (q, bool_decide (w ∈ s_plus)) ∧
    (is_prefix_of (s_plus ∪ s_minus) w → q = mkState w) ∧
    (w ∈ s_minus → q ∈ reject_states pta).
Proof.
  destruct (build_pta_result s_plus s_minus)
    as (pta & Hrun & Hst & Hal & Hstates & Hlinked & Hsound & Hacc & Hrej).
  destruct (parse_from_prefix s_plus s_minus pta _
              (elem_of_P s_plus s_minus)) with (w := w) (u := EmptyString)
    as (q & Hq & Hpq); [| |done|by left|].
  - intros u a Hu Ha.
    assert (mkState u ∈ (list_to_set
              (mkState <$> prefix_set (s_plus ∪ s_minus)
                 (determine_alphabet (s_plus ∪ s_minus))) : gset State))
      as HuP by (by apply elem_of_P).
    split; [by apply (Hlinked (mkState u) a)|].
    apply Hstates. right. exists (mkState u), a.
    split_and!; [by apply elem_of_elements|done|done].
  - intros q a q' Hd. destruct (Hsound q a q' Hd) as ([->|Hq] & Ha & _).
    + split; [by left|done].
    + split; [right; by apply elem_of_P|done].
  - exists pta, q. split; [done|].
    rewrite parse_string_run, Hst.
    change (EmptyString +:+ w) with w in Hq, Hpq. simpl.
    split_and!; [f_equal; exact Hq|done|].
    intros Hw. rewrite Hpq.
    + by apply Hrej.
    + apply sample_is_prefix, elem_of_union. by right.
Qed.


(** X10. In the automaton that [build_pta] returns every transition
    target is a state; the start state [State('')] is a state exactly
    when there is a sample; and the accept and reject states are
    disjoint exactly when the positive and negative samples are. *)
Theorem pta_invariants (s_plus s_minus : gset string) :
  ∃ pta,
    build_pta s_plus s_minus = Return pta ∧
    targets_registered pta ∧
    (_start_state pta ∈ states pta ↔ s_plus ∪ s_minus ≠ ∅) ∧
    (accept_states pta ∩ reject_states pta = ∅ ↔ s_plus ∩ s_minus = ∅).
Proof.
  destruct (build_pta_result s_plus s_minus)
    as (pta & Hrun & Hst & Hal & Hstates & Hlinked & Hsound & Hacc & Hrej).
  exists pta. split; [done|]. split_and!.
  - intros q a q' Hd. destruct (Hsound q a q' Hd) as (Hq & Ha & ->).
    apply Hstates. right. exists q, a. split_and!; [|done|done].
    apply elem_of_elements. destruct Hq as [->|?]; [|done].
    apply elem_of_P. by apply determine_alphabet_inhabited in Ha.
  - rewrite Hst, Hstates. split.
    + intros [(w & v & Hw & _)%elem_of_P|(u & a & Hu & _)] Hempty.
      * rewrite Hempty in Hw. by apply elem_of_empty in Hw.
      * apply elem_of_elements, elem_of_P in Hu as (w & v & Hw & _).
        rewrite Hempty in Hw. by apply elem_of_empty in Hw.
    + intros [w Hw]%set_choose_L. left. apply elem_of_P. by exists w, w.
  - rewrite !elem_of_equiv_empty_L. split.
    + intros Hdis w [Hp Hm]%elem_of_intersection.
      apply (Hdis (mkState w)). apply elem_of_intersection.
      split; [by apply Hacc|by apply Hrej].
    + intros Hdis q [Hp%Hacc Hm%Hrej]%elem_of_intersection.
      apply (Hdis (name q)). by apply elem_of_intersection.
Qed.

End PTAMore.

(** ** The non-deterministic automaton: building *)

Module NFAMore.
Import NFA NFAFacts.

Lemma nfa_transition_run n q a :
  transition q a n =
    match _transitions n !! q with
    | Some m =>
        (match od_lookup a m with
         | Some to_states => Return to_states
         | None => Raise KeyError
         end, n)
    | None => (Raise KeyError, set_transitions (insert q []) n)
    end.
Proof.
  unfold transition, bind, transitions_getitem.
  destruct (_transitions n !! q) as [m|]; simpl; [|done].
  by destruct (od_lookup a m).
Qed.

(** X11. [NFA.add_transition] raises exactly when the symbol is neither
    a letter of the alphabet nor the empty symbol; the exception is a
    [ValueError] and the automaton is left as it was. Otherwise the call
    returns. *)
Theorem nfa_add_transition_errors (n : t) (q1 q2 : State) (a : string) :
  ((add_transition q1 q2 a n).1 = Raise ValueError ↔
   (a ∉ alphabet n) ∧ a ≠ epsilon) ∧
  ((add_transition q1 q2 a n).1 = Return tt ↔
   a ∈ alphabet n ∨ a = epsilon) ∧
  (∀ e, (add_transition q1 q2 a n).1 = Raise e →
        e = ValueError ∧ (add_transition q1 q2 a n).2 = n).
Proof.
  destruct (decide (a ∈ alphabet n)) as [Ha|Ha];
    [|destruct (decide (a = epsilon)) as [He|He]].
  - rewrite nfa_add_transition_in by by left. simpl.
    split_and!; [split; [done|tauto]|split; [by left|done]|done].
  - rewrite nfa_add_transition_in by by right. simpl.
    split_and!; [split; [done|tauto]|split; [by right|done]|done].
  - rewrite nfa_add_transition_out by done. simpl.
    split_and!; [done|split; [done|tauto]|].
    by intros e [= <-].
Qed.

Lemma added_row n q1 q2 a :
  _transitions (added q1 q2 a n) !! q1
  = Some (od_set a (default ∅ (od_lookup a (row n q1)) ∪ {[q2]}) (row n q1)).
Proof. unfold added, row. simpl. by rewrite lookup_insert_eq. Qed.

Lemma edge_row n q a r :
  edge n q a r ↔ ∃ to_states, od_lookup a (row n q) = Some to_states ∧
                              r ∈ to_states.
Proof.
  unfold edge, row. split.
  - intros (m & S & -> & ? & ?). by exists S.
  - intros (S & HS & ?). destruct (_transitions n !! q) as [m|]; [|done].
    by exists m, S.
Qed.

(** X12. After a call [add_transition(q1, q2, a)] that does not raise,
    [transition(q1, a)] returns, without changing the automaton, the set
    of the former targets of [q1] on [a] together with [q2]; for every
    other state and symbol [transition] has the outcome that it had
    before the call. *)
Theorem nfa_add_then_transition (n : t) (q1 q2 : State) (a : string) :
  a ∈ alphabet n ∨ a = epsilon →
  ∃ to_states,
    transition q1 a (add_transition q1 q2 a n).2
      = (Return to_states, (add_transition q1 q2 a n).2) ∧
    (∀ q, q ∈ to_states ↔ q = q2 ∨ edge n q1 a q) ∧
    (∀ q b, (q, b) ≠ (q1, a) →
            (transition q b (add_transition q1 q2 a n).2).1
            = (transition q b n).1).
Proof.
  intros Ha. rewrite nfa_add_transition_in by done. simpl.
  eexists. split_and!.
  - rewrite nfa_transition_run, added_row. by rewrite od_lookup_set_eq.
  - intros q. rewrite elem_of_union, elem_of_singleton, edge_row.
    destruct (od_lookup a (row n q1)) as [S|]; simpl.
    + split; [intros [?| ->]; eauto|].
      intros [->|(S' & [= <-] & ?)]; auto.
    + rewrite elem_of_empty. split; [intros [[]| ->]; auto|].
      intros [->|(S' & [=] & ?)]. auto.
  - intros q b Hne. rewrite !nfa_transition_run.
    destruct (decide (q = q1)) as [->|Hq].
    + rewrite added_row, od_lookup_set_ne by congruence.
      unfold row. by destruct (_transitions n !! q1).
    + unfold added. simpl. rewrite lookup_insert_ne by done.
      by destruct (_transitions n !! q).
Qed.

Lemma nfa_add_then_transition_witness :
  ∃ to_states,
    transition (mkState "p") "a"
      (add_transition (mkState "p") (mkState "q") "a" (init {["a"]})).2
    = (Return to_states,
       (add_transition (mkState "p") (mkState "q") "a" (init {["a"]})).2) ∧
    mkState "q" ∈ to_states.
Proof.
  destruct (nfa_add_then_transition (init {["a"]}) (mkState "p")
              (mkState "q") "a") as (S & Hrun & HS & _).
  - left. vm_compute. reflexivity.
  - exists S. split; [exact Hrun|]. apply HS. by left.
Defined.

(** X13. Adding a transition a second time changes nothing: the call
    returns and leaves the automaton as the first call made it. *)
Theorem nfa_add_transition_idempotent (n : t) (q1 q2 : State) (a : string) :
  a ∈ alphabet n ∨ a = epsilon →
  add_transition q1 q2 a (add_transition q1 q2 a n).2
  = (Return tt, (add_transition q1 q2 a n).2).
Proof.
  intros Ha.
  pose proof (nfa_add_transition_in (added q1 q2 a n) q1 q2 a Ha) as Hagain.
  rewrite (nfa_add_transition_in n) by done. cbn [snd]. rewrite Hagain.
  f_equal.
  destruct n as [al st Q F tr]. unfold added, set_transitions. simpl.
  rewrite lookup_insert_eq. simpl. rewrite od_lookup_set_eq. simpl.
  rewrite od_set_set, insert_insert_eq.
  by rewrite <- (assoc_L (∪)), (idemp_L (∪)).
Qed.

Lemma nfa_add_transition_idempotent_witness :
  let n := (add_transition (mkState "p") (mkState "q") "a"
              (init {["a"]})).2 in
  add_transition (mkState "p") (mkState "q") "a" n = (Return tt, n).
Proof.
  apply (nfa_add_transition_idempotent (init {["a"]})).
  left. vm_compute. reflexivity.
Defined.

Lemma od_set_key_elem {V} (k : string) (v : V) (d : list (string * V)) x :
  x ∈ (od_set k v d).*1 → x = k ∨ x ∈ d.*1.
Proof.
  induction d as [|[k' v'] d IH]; simpl.
  - intros ->%list_elem_of_singleton. by left.
  - destruct (decide (k = k')) as [->|Hne]; simpl.
    + intros [->|?]%elem_of_cons; [by left|]. right. by right.
    + intros [->|[?|?]%IH]%elem_of_cons; [right; by left|by left|].
      right. by right.
Qed.

Lemma od_set_keys {V} (k : string) (v : V) (d : list (string * V)) :
  NoDup d.*1 → NoDup (od_set k v d).*1.
Proof.
  induction d as [|[k' v'] d IH]; simpl; intros Hd.
  - apply NoDup_singleton.
  - apply NoDup_cons in Hd as [Hk' Hd].
    destruct (decide (k = k')) as [->|Hne]; simpl.
    + by apply NoDup_cons.
    + apply NoDup_cons. split; [|by apply IH].
      intros [->|?]%od_set_key_elem; done.
Qed.

Lemma perform_keeps_well_formed c n :
  well_formed n →
  well_formed (perform c n).2 ∧ alphabet (perform c n).2 = alphabet n.
Proof.
  intros (Hstart & Hord & Hlab). destruct c as [q1 q2 a|q|q|q]; simpl.
  - destruct (decide (a ∈ alphabet n ∨ a = epsilon)) as [Ha|Ha].
    + rewrite nfa_add_transition_in by done. simpl.
      split; [|done]. split_and!; [done| |].
      * intros q m. unfold added. simpl.
        destruct (decide (q = q1)) as [->|Hq].
        -- rewrite lookup_insert_eq. intros [= <-]. apply od_set_keys.
           destruct (_transitions n !! q1) as [m'|] eqn:Hm; simpl.
           ++ by apply (Hord q1).
           ++ apply NoDup_nil_2.
        -- rewrite lookup_insert_ne by done. apply Hord.
      * intros q b r [Hed|(-> & -> & ->)]%edge_added; [|done].
        by apply (Hlab q b r).
    + rewrite nfa_add_transition_out; [done| |];
        intros ?; apply Ha; [by left|by right].
  - split; [|done]. split_and!; [|done|done]. simpl.
    intros x Hx. apply elem_of_union. left. by apply Hstart.
  - by split.
  - unfold add_start_state, bind, get, modify.
    case_bool_decide as Hq; simpl; (split; [|done]);
      (split_and!; [|done|done]); simpl;
      intros x [Hx| ->%elem_of_singleton]%elem_of_union.
    + apply elem_of_union. left. by apply Hstart.
    + apply elem_of_union. right. by apply elem_of_singleton.
    + by apply Hstart.
    + done.
Qed.

Lemma nfa_init_well_formed alphabet : well_formed (init alphabet).
Proof.
  split_and!.
  - done.
  - intros q m Hm. simpl in Hm. by rewrite lookup_empty in Hm.
  - intros q a r (m & S & Hm & _). simpl in Hm.
    by rewrite lookup_empty in Hm.
Qed.

Lemma after_calls_keeps_well_formed calls :
  ∀ n, well_formed n → well_formed (after_calls calls n).
Proof.
  induction calls as [|c calls IH]; intros n Hwf; simpl; [done|].
  apply IH. by apply perform_keeps_well_formed.
Qed.

(** X14. Every automaton obtained from [NFA(alphabet)] by calls of
    [add_transition], [add_state], [add_accepting_state] and
    [add_start_state], whether they raise or not, has the alphabet it
    was built with, has its start states among its states, and has
    transitions on letters of the alphabet or the empty symbol only,
    kept in rows without a repeated key. *)
Theorem nfa_after_calls_well_formed (alphabet : gset string)
    (calls : list call) :
  well_formed (after_calls calls (init alphabet)) ∧
  NFA.alphabet (after_calls calls (init alphabet)) = alphabet.
Proof.
  assert (well_formed (init alphabet) ∧
          NFA.alphabet (init alphabet) = alphabet) as Hinit.
  { split; [|done]. split_and!.
    - done.
    - intros q m Hm. simpl in Hm. by rewrite lookup_empty in Hm.
    - intros q a r (m & S & Hm & _). simpl in Hm.
      by rewrite lookup_empty in Hm. }
  revert Hinit. generalize (init alphabet).
  induction calls as [|c calls IH]; intros n [Hwf Hal]; simpl; [done|].
  apply IH. destruct (perform_keeps_well_formed c n Hwf) as [? ?].
  split; [done|congruence].
Qed.

End NFAMore.

(** ** The non-deterministic automaton: parsing *)

Module NFAParse.
Import NFA NFAFacts NFAMore.

Lemma same_table_refl n : same_table n n.
Proof. done. Qed.

Lemma same_table_trans n1 n2 n3 :
  same_table n1 n2 → same_table n2 n3 → same_table n1 n3.
Proof.
  intros (? & ? & ? & ? & Hr1) (? & ? & ? & ? & Hr2).
  unfold same_table. split_and!; congruence.
Qed.

Lemma same_table_edge n n' q a r :
  same_table n n' → edge n' q a r ↔ edge n q a r.
Proof. intros (_ & _ & _ & _ & Hrow). by rewrite !edge_row, Hrow. Qed.

(** Indexing the table answers the row and changes the table by an
    empty row at most. *)
Lemma transitions_getitem_row n q :
  ∃ n', transitions_getitem q n = (Return (row n q), n') ∧ same_table n n'.
Proof.
  unfold transitions_getitem, row.
  destruct (_transitions n !! q) as [m|] eqn:Hq; simpl.
  - exists n. split; [done|]. apply same_table_refl.
  - eexists. split; [done|]. repeat split; simpl.
    intros q'. unfold row. simpl. destruct (decide (q' = q)) as [->|Hne].
    + by rewrite lookup_insert_eq, Hq.
    + by rewrite lookup_insert_ne.
Qed.

Lemma od_lookup_elem {V} (k : string) (v : V) (d : list (string * V)) :
  NoDup d.*1 → (k, v) ∈ d → od_lookup k d = Some v.
Proof.
  induction d as [|[k' v'] d IH]; simpl; intros Hd Hin.
  - by apply elem_of_nil in Hin.
  - apply NoDup_cons in Hd as [Hk' Hd].
    apply elem_of_cons in Hin as [[= <- <-]|Hin].
    + by rewrite decide_True.
    + rewrite decide_False; [by apply IH|].
      intros ->. apply Hk'. apply list_elem_of_fmap. by exists (k', v).
Qed.

Lemma ordered_row n q : ordered n → NoDup (row n q).*1.
Proof.
  intros Hord. unfold row.
  destruct (_transitions n !! q) as [m|] eqn:Hq; simpl.
  - by apply (Hord q).
  - apply NoDup_nil_2.
Qed.

(** The items of the row of a state are its transitions. *)
Lemma row_item_edge n q symbol to_states r :
  ordered n → (symbol, to_states) ∈ row n q → r ∈ to_states →
  edge n q symbol r.
Proof.
  intros Hord Hin Hr. apply edge_row. exists to_states. split; [|done].
  apply od_lookup_elem; [by apply ordered_row|done].
Qed.

Section Search.
Variables (n : t) (s : string) (G : State * nat → Prop).

Hypothesis G_in_range : ∀ e, G e → e.2 ≤ length (letters s).
Hypothesis G_pushed :
  ∀ state index symbol to_states to_state,
    G (state, index) → index < length (letters s) →
    (symbol, to_states) ∈ row n state → to_state ∈ to_states →
    (symbol = epsilon → G (to_state, index)) ∧
    (letters s !! index = Some symbol → G (to_state, index + 1)).

Lemma pushes state index σ stack :
  G (state, index) → index < length (letters s) → Forall G stack →
  ∃ stack',
    for_each (row n state)
      (λ item, for_each (elements item.2) (parse_push s index item.1))
      stack σ = (Return stack', σ) ∧
    Forall G stack'.
Proof using All.
  intros HG Hlt Hstack.
  destruct (for_each_invariant (λ _ b σ', σ' = σ ∧ Forall G b)
              (λ item, for_each (elements item.2)
                         (parse_push s index item.1)) (row n state))
    with (b := stack) (σ := σ) as (stack' & σ' & Hrun & -> & Hst');
    [|done|by exists stack'].
  intros _ [symbol to_states] b σ0 [-> Hb] Hitem. simpl.
  destruct (for_each_invariant (λ _ b' σ', σ' = σ ∧ Forall G b')
              (parse_push s index symbol) (elements to_states))
    with (b := b) (σ := σ) as (b' & σ' & Hrun & -> & Hb');
    [|done|by exists b', σ].
  intros _ to_state b0 σ0 [-> Hb0] Hto%elem_of_elements.
  destruct (G_pushed state index symbol to_states to_state HG Hlt Hitem Hto)
    as [Heps Hsym].
  unfold parse_push. case_bool_decide as He.
  - eexists _, σ. split; [done|]. split; [done|].
    constructor; [by apply Heps|done].
  - unfold bind, str_getitem.
    destruct (lookup_lt_is_Some_2 (letters s) index Hlt) as [c Hc].
    rewrite Hc. simpl. case_bool_decide as Hs.
    + eexists _, σ. split; [done|]. split; [done|].
      constructor; [|done]. apply Hsym. by rewrite Hs.
    + by eexists _, σ.
Qed.

Lemma parse_while_keeps fuel :
  ∀ stack σ,
    same_table n σ → Forall G stack →
    ∃ o σ',
      parse_while fuel s stack σ = (o, σ') ∧ same_table n σ' ∧
      (∀ e, o ≠ Raise e) ∧
      (∀ q, o = Return (Some q) →
            q ∈ _accept_states n ∧ G (q, length (letters s))).
Proof using All.
  induction fuel as [|fuel IH]; intros stack σ Hσ Hstack.
  - destruct stack as [|[state index] stack]; simpl; by eexists _, _.
  - destruct stack as [|[state index] stack]; simpl.
    { by eexists _, _. }
    apply Forall_cons in Hstack as [HG Hstack].
    case_bool_decide as Hidx.
    + unfold bind, get. case_bool_decide as Hacc.
      * eexists _, _. split; [done|]. split; [done|]. split; [done|].
        intros q [= <-]. subst index. split; [|done].
        destruct Hσ as (_ & _ & _ & <- & _). done.
      * by apply IH.
    + unfold bind at 1.
      destruct (transitions_getitem_row σ state) as (σ1 & -> & Hσ1).
      assert (row σ state = row n state) as ->.
      { by destruct Hσ as (_ & _ & _ & _ & ->). }
      pose proof (G_in_range _ HG) as Hle. simpl in Hle.
      unfold bind at 1.
      destruct (pushes state index σ1 stack) as (stack' & -> & Hstack');
        [done|lia|done|].
      apply IH; [|done]. by apply same_table_trans with σ.
Qed.

Lemma parse_starts_keeps fuel starts :
  ∀ σ,
    same_table n σ → Forall (λ q, G (q, 0)) starts →
    ∃ o σ',
      parse_starts fuel s starts σ = (o, σ') ∧ same_table n σ' ∧
      (∀ e, o ≠ Raise e) ∧
      (∀ q, o = Return (Some q) →
            q ∈ _accept_states n ∧ G (q, length (letters s))).
Proof using All.
  induction starts as [|q0 starts IH]; intros σ Hσ Hstarts; simpl.
  - by eexists _, _.
  - apply Forall_cons in Hstarts as [Hq0 Hstarts]. unfold bind.
    destruct (parse_while_keeps fuel [(q0, 0)] σ)
      as (o & σ1 & -> & Hσ1 & Ho & Hfound); [done|by constructor|].
    destruct o as [[q|]|e|].
    + eexists _, _. split; [done|]. split; [done|]. split; [done|].
      intros q' [= <-]. by apply Hfound.
    + by apply IH.
    + by destruct (Ho e).
    + by eexists _, _.
Qed.
End Search.


(** X15. [NFA.parse_string] changes the automaton by empty rows of the
    table at most: alphabet, start states, states and accept states are
    the same after the call, whatever its outcome, and so is the
    transition relation. *)
Theorem nfa_parse_string_frame (n : t) (fuel : nat) (s : string) :
  same_table n (parse_string fuel s n).2 ∧
  ∀ q a r, edge (parse_string fuel s n).2 q a r ↔ edge n q a r.
Proof.
  assert (same_table n (parse_string fuel s n).2) as Hsame.
  { unfold parse_string, bind at 1, get. unfold bind at 1.
    destruct (parse_starts_keeps n s (in_range s)) with
      (fuel := fuel) (starts := elements (_start_states n)) (σ := n)
      as (o & σ' & -> & Hσ' & _).
    - by intros e.
    - intros state index symbol S to_state _ Hlt _ _.
      unfold in_range; simpl. split; intros _; lia.
    - apply same_table_refl.
    - apply Forall_forall. intros q _. unfold in_range; simpl. lia.
    - destruct o as [[q|]|e|]; try exact Hσ'.
      unfold next_start_state, bind, get.
      destruct (elements (_start_states σ')); exact Hσ'. }
  split; [done|]. intros q a r. by apply same_table_edge.
Qed.

(** X16. Whenever [NFA.parse_string] answers [True], on an automaton
    whose rows have no repeated key, the state that it returns is an
    accept state at the end of a run of the automaton from a start state
    over the whole input: the automaton accepts the string. *)
Theorem nfa_parse_string_sound (n : t) (fuel : nat) (s : string)
    (q : State) :
  ordered n →
  (parse_string fuel s n).1 = Return (q, true) →
  q ∈ _accept_states n ∧
  (∃ q0, q0 ∈ _start_states n ∧ run n q0 (letters s) q) ∧
  accepts n s.
Proof.
  intros Hord. unfold parse_string, bind at 1, get. unfold bind at 1.
  destruct (parse_starts_keeps n s (continues n s)) with
    (fuel := fuel) (starts := elements (_start_states n)) (σ := n)
    as (o & σ' & -> & Hσ' & _ & Hfound).
  - by intros e [? _].
  - intros state index symbol tos to_state [_ Hcont] Hlt Hitem Hto.
    pose proof (row_item_edge n state symbol tos to_state Hord Hitem Hto)
      as Hedge.
    simpl in Hcont. split.
    + intros ->. split; [simpl; lia|]. simpl. intros qf Hrun.
      apply Hcont. by apply run_epsilon with to_state.
    + intros Hsym. split; [simpl; lia|]. simpl. intros qf Hrun.
      apply Hcont. rewrite (drop_S _ _ _ Hsym).
      apply run_letter with to_state; [done|].
      by replace (S index) with (index + 1) by lia.
  - apply same_table_refl.
  - apply Forall_forall. intros q0 Hq0%elem_of_elements.
    split; [simpl; lia|]. simpl. intros qf Hrun. by exists q0.
  - destruct o as [[q'|]|e|]; [|clear Hfound|done|done].
    + intros [= ->]. destruct (Hfound q eq_refl) as [Hacc [_ Hcont]].
      simpl in Hcont. rewrite drop_all in Hcont.
      destruct (Hcont q (run_done n q)) as (q0 & Hq0 & Hrun).
      split; [done|]. split; [by exists q0|]. by exists q0, q.
    + unfold next_start_state, bind, get.
      by destruct (elements (_start_states σ')).
Qed.

(** The automaton with the single state [p], a start and accept state:
    the empty string is accepted. *)
Lemma nfa_parse_string_sound_witness :
  let n := after_calls [AddStartState (mkState "p");
                        AddAcceptingState (mkState "p")] (init {["a"]}) in
  accepts n EmptyString.
Proof.
  intros n.
  apply (nfa_parse_string_sound n 1 EmptyString (mkState "p")).
  - apply after_calls_keeps_well_formed, nfa_init_well_formed.
  - vm_compute. reflexivity.
Defined.


Lemma od_lookup_some_elem {V} (k : string) (v : V) (d : list (string * V)) :
  od_lookup k d = Some v → (k, v) ∈ d.
Proof.
  induction d as [|[k' v'] d IH]; simpl; [done|].
  case_decide as Hk.
  - intros [= ->]. subst. by left.
  - intros ?. right. by apply IH.
Qed.

Lemma letter_nonempty (s : string) index c :
  letters s !! index = Some c → c ≠ epsilon.
Proof.
  revert index. induction s as [|ch s IH]; intros [|index]; simpl; try done.
  - by intros [= <-].
  - apply IH.
Qed.

Section Pushes.
Variables (n : t) (s : string) (state : State) (index : nat) (c : string).
Hypothesis ordered_n : ordered n.
Hypothesis epsilon_free_n : epsilon_free n.
Hypothesis at_index : letters s !! index = Some c.

(** The entries that the loop over the targets of one symbol pushes. *)
Lemma pushes_of_symbol σ symbol (tos : list State) :
  ∃ pushed,
    (∀ stack, for_each tos (parse_push s index symbol) stack σ
              = (Return (pushed ++ stack), σ)) ∧
    ∀ e, e ∈ pushed ↔
         ∃ to_state, to_state ∈ tos ∧
           (symbol = epsilon ∧ e = (to_state, index) ∨
            symbol ≠ epsilon ∧ symbol = c ∧ e = (to_state, index + 1)).
Proof using at_index.
  induction tos as [|to_state tos IH].
  - exists []. split; [done|]. intros e. split; [by intros []%elem_of_nil|].
    by intros (? & []%elem_of_nil & _).
  - destruct IH as (pushed & Hrun & Hin).
    assert (∃ new,
              (∀ stack, parse_push s index symbol to_state stack σ
                        = (Return (new ++ stack), σ)) ∧
              ∀ e, e ∈ new ↔
                   (symbol = epsilon ∧ e = (to_state, index) ∨
                    symbol ≠ epsilon ∧ symbol = c ∧
                    e = (to_state, index + 1)))
      as (new & Hnew & Hin_new).
    { unfold parse_push. case_bool_decide as He.
      - exists [(to_state, index)]. split; [done|]. intros e.
        rewrite list_elem_of_singleton. split; [by left|].
        by intros [[_ ?]|[? _]].
      - unfold bind, str_getitem. rewrite at_index. simpl.
        case_bool_decide as Hc.
        + exists [(to_state, index + 1)]. split; [done|]. intros e.
          rewrite list_elem_of_singleton. split; [by right|].
          by intros [[? _]|(_ & _ & ?)].
        + exists []. split; [done|]. intros e.
          split; [by intros []%elem_of_nil|].
          by intros [[? _]|(_ & ? & _)]. }
    exists (pushed ++ new). split.
    + intros stack. simpl. unfold bind. rewrite Hnew, Hrun.
      by rewrite app_assoc.
    + intros e. rewrite elem_of_app, Hin, Hin_new. split.
      * intros [(to' & ? & ?)|?]; [exists to'|exists to_state];
          (split; [|done]); [by right|by left].
      * intros (to' & [->|?]%elem_of_cons & ?); [by right|].
        left. by exists to'.
Qed.

(** The entries that one iteration of the search pushes: the targets of
    the transitions of [state] on the letter at [index], for the next
    index. *)
Lemma pushes_of_state σ :
  ∃ pushed,
    (∀ stack,
       for_each (row n state)
         (λ item, for_each (elements item.2) (parse_push s index item.1))
         stack σ = (Return (pushed ++ stack), σ)) ∧
    ∀ e, e ∈ pushed ↔
         ∃ to_state, e = (to_state, index + 1) ∧ edge n state c to_state.
Proof using All.
  assert (∀ items,
            (∀ item, item ∈ items → item ∈ row n state) →
            ∃ pushed,
              (∀ stack,
                 for_each items
                   (λ item, for_each (elements item.2)
                              (parse_push s index item.1))
                   stack σ = (Return (pushed ++ stack), σ)) ∧
              ∀ e, e ∈ pushed ↔
                   ∃ to_state tos, e = (to_state, index + 1) ∧
                                   (c, tos) ∈ items ∧ to_state ∈ tos)
    as Hitems.
  { induction items as [|[symbol tos] items IH]; intros Hsub.
    - exists []. split; [done|]. intros e.
      split; [by intros []%elem_of_nil|].
      by intros (? & ? & _ & []%elem_of_nil & _).
    - destruct IH as (pushed & Hrun & Hin).
      { intros item ?. apply Hsub. by right. }
      destruct (pushes_of_symbol σ symbol (elements tos))
        as (new & Hnew & Hin_new).
      exists (pushed ++ new). split.
      + intros stack. simpl. unfold bind. rewrite Hnew, Hrun.
        by rewrite app_assoc.
      + intros e. rewrite elem_of_app, Hin, Hin_new. split.
        * intros [(to' & tos' & ? & ? & ?)|(to' & Hto & Hcase)].
          -- exists to', tos'. split_and!; [done|by right|done].
          -- apply elem_of_elements in Hto.
             destruct Hcase as [[-> ->]|(_ & -> & ->)].
             ++ destruct (epsilon_free_n state to').
                apply (row_item_edge n state epsilon tos to');
                  [done| |done]. apply Hsub. by left.
             ++ exists to', tos. split_and!; [done|by left|done].
        * intros (to' & tos' & -> & [[= <- <-]|?]%elem_of_cons & ?).
          -- right. exists to'. split; [by apply elem_of_elements|].
             right. split_and!; [|done|done].
             by apply (letter_nonempty s index).
          -- left. by exists to', tos'. }
  destruct (Hitems (row n state)) as (pushed & Hrun & Hin); [done|].
  exists pushed. split; [done|]. intros e. rewrite Hin. split.
  - intros (to' & tos & -> & Hitem & Hto). exists to'. split; [done|].
    by apply (row_item_edge n state c tos to').
  - intros (to' & -> & (tos & Hlook & Hto)%edge_row).
    exists to', tos. split_and!; [done| |done].
    by apply od_lookup_some_elem.
Qed.
End Pushes.


Section Complete.
Variables (n : t) (s : string).
Hypothesis ordered_n : ordered n.
Hypothesis epsilon_free_n : epsilon_free n.

Lemma run_nil_inv q qf : run n q [] qf → qf = q.
Proof using epsilon_free_n.
  inversion 1 as [|? q' ? ? Hedge|]; [done|].
  by destruct (epsilon_free_n q q').
Qed.

Lemma run_cons_inv q a l qf :
  run n q (a :: l) qf → ∃ q', edge n q a q' ∧ run n q' l qf.
Proof using epsilon_free_n.
  inversion 1 as [|? q' ? ? Hedge|? ? q' ? ? Hedge Hrun]; subst.
  - by destruct (epsilon_free_n q q').
  - by exists q'.
Qed.

(** An iteration of the search on an entry at the end of the input. *)
Lemma step_end fuel state stack σ :
  same_table n σ →
  parse_while (S fuel) s ((state, length (letters s)) :: stack) σ =
    if bool_decide (state ∈ _accept_states n)
    then (Return (Some state), σ)
    else parse_while fuel s stack σ.
Proof using Type.
  intros (_ & _ & _ & Hacc & _). simpl.
  rewrite bool_decide_eq_true_2 by done. unfold bind, get.
  rewrite Hacc. by case_bool_decide.
Qed.

(** An iteration of the search on an entry within the input. *)
Lemma step_push state index c σ :
  same_table n σ → letters s !! index = Some c →
  ∃ pushed σ1,
    same_table n σ1 ∧
    (∀ fuel stack,
       parse_while (S fuel) s ((state, index) :: stack) σ
       = parse_while fuel s (pushed ++ stack) σ1) ∧
    ∀ e, e ∈ pushed ↔
         ∃ to_state, e = (to_state, index + 1) ∧ edge n state c to_state.
Proof using All.
  intros Hσ Hc.
  destruct (transitions_getitem_row σ state) as (σ1 & Hget & Hσ1).
  assert (row σ state = row n state) as Hrow.
  { by destruct Hσ as (_ & _ & _ & _ & ->). }
  rewrite Hrow in Hget.
  destruct (pushes_of_state n s state index c ordered_n epsilon_free_n
              Hc σ1) as (pushed & Hrun & Hin).
  exists pushed, σ1. split; [by apply same_table_trans with σ|].
  split; [|done]. intros fuel stack. simpl.
  rewrite bool_decide_eq_false_2.
  - unfold bind at 1. rewrite Hget. unfold bind at 1. by rewrite Hrun.
  - apply lookup_lt_Some in Hc. lia.
Qed.

(** The search over the entries [front] on top of the stack: it finds
    an accept state exactly when a run from one of the entries ends in
    one, and otherwise goes on with the rest of the stack. *)
Lemma search_front :
  ∀ k front,
    Forall (λ e : State * nat,
              e.2 ≤ length (letters s) ∧ length (letters s) - e.2 ≤ k)
      front →
    ∀ rest σ,
      same_table n σ →
      ∃ fuel1 σ',
        same_table n σ' ∧
        ((∃ q, Exists (accepting_from n s) front ∧
               ∀ fuel, parse_while (fuel1 + fuel) s (front ++ rest) σ
                       = (Return (Some q), σ')) ∨
         (¬ Exists (accepting_from n s) front ∧
          ∀ fuel, parse_while (fuel1 + fuel) s (front ++ rest) σ
                  = parse_while fuel s rest σ')).
Proof using All.
  induction k as [k IHk] using lt_wf_ind.
  induction front as [|[state index] front IHf]; intros Hm rest σ Hσ.
  { exists 0, σ. split; [done|]. right. split; [|done].
    by intros ?%Exists_nil. }
  apply Forall_cons in Hm as [[Hle Hk] Hm]. simpl in Hle, Hk.
  destruct (decide (index = length (letters s))) as [->|Hne].
  - destruct (decide (state ∈ _accept_states n)) as [Hacc|Hacc].
    + exists 1, σ. split; [done|]. left. exists state. split.
      * apply Exists_cons_hd. exists state. simpl. rewrite drop_all.
        split; [constructor|done].
      * intros fuel. change (1 + fuel) with (S fuel).
        rewrite <- app_comm_cons, step_end by done.
        by rewrite bool_decide_eq_true_2.
    + destruct (IHf Hm rest σ Hσ) as (fuel1 & σ' & Hσ' & Hcase).
      exists (S fuel1), σ'. split; [done|].
      assert (¬ accepting_from n s (state, length (letters s))) as Hnacc.
      { intros (qf & Hrun & Hqf). simpl in Hrun. rewrite drop_all in Hrun.
        by apply run_nil_inv in Hrun as ->. }
      assert (∀ fuel,
                parse_while (S fuel1 + fuel) s
                  (((state, length (letters s)) :: front) ++ rest) σ
                = parse_while (fuel1 + fuel) s (front ++ rest) σ) as Hstep.
      { intros fuel. change (S fuel1 + fuel) with (S (fuel1 + fuel)).
        rewrite <- app_comm_cons, step_end by done.
        by rewrite bool_decide_eq_false_2. }
      destruct Hcase as [(q & Hex & Hrun)|(Hnex & Hrun)].
      * left. exists q. split; [by apply Exists_cons_tl|].
        intros fuel. by rewrite Hstep.
      * right. split; [by intros [?|?]%Exists_cons|].
        intros fuel. by rewrite Hstep.
  - destruct (lookup_lt_is_Some_2 (letters s) index) as [c Hc]; [lia|].
    destruct (step_push state index c σ Hσ Hc)
      as (pushed & σ1 & Hσ1 & Hstep & Hpushed).
    assert (∀ qf, run n state (drop index (letters s)) qf ↔
                  ∃ to_state, edge n state c to_state ∧
                    run n to_state (drop (index + 1) (letters s)) qf)
      as Hrun_state.
    { intros qf. rewrite (drop_S _ _ _ Hc).
      replace (index + 1) with (S index) by lia. split.
      - apply run_cons_inv.
      - intros (q' & ? & ?). by apply run_letter with q'. }
    assert (accepting_from n s (state, index) ↔
            Exists (accepting_from n s) pushed) as Hacc.
    { rewrite Exists_exists. unfold accepting_from. simpl. split.
      - intros (qf & (q' & Hedge & Hrun)%Hrun_state & Hqf).
        exists (q', index + 1). split; [apply Hpushed; by exists q'|].
        by exists qf.
      - intros (e & (q' & -> & Hedge)%Hpushed & qf & Hrun & Hqf).
        exists qf. split; [|done]. apply Hrun_state. by exists q'. }
    destruct (IHk (length (letters s) - (index + 1))) with
      (front := pushed) (rest := front ++ rest) (σ := σ1)
      as (fuelP & σ2 & Hσ2 & HcaseP); [lia| |done|].
    { apply Forall_forall. intros e (q' & -> & _)%Hpushed. simpl. lia. }
    destruct HcaseP as [(q & Hex & Hrun)|(Hnex & Hrun)].
    + exists (S fuelP), σ2. split; [done|]. left. exists q. split.
      * apply Exists_cons_hd. by apply Hacc.
      * intros fuel. change (S fuelP + fuel) with (S (fuelP + fuel)).
        by rewrite <- app_comm_cons, Hstep.
    + destruct (IHf Hm rest σ2 Hσ2) as (fuelF & σ3 & Hσ3 & HcaseF).
      exists (S (fuelP + fuelF)), σ3. split; [done|].
      assert (∀ fuel,
                parse_while (S (fuelP + fuelF) + fuel) s
                  (((state, index) :: front) ++ rest) σ
                = parse_while (fuelF + fuel) s (front ++ rest) σ2)
        as Hsteps.
      { intros fuel.
        change (S (fuelP + fuelF) + fuel) with (S (fuelP + fuelF + fuel)).
        rewrite <- app_comm_cons, Hstep.
        by rewrite <- Nat.add_assoc, Hrun. }
      destruct HcaseF as [(q & Hex & HrunF)|(HnexF & HrunF)].
      * left. exists q. split; [by apply Exists_cons_tl|].
        intros fuel. by rewrite Hsteps.
      * right. split.
        -- intros [?%Hacc|?]%Exists_cons; done.
        -- intros fuel. by rewrite Hsteps.
Qed.

(** The loop over the start states. *)
Lemma search_starts starts :
  ∀ σ,
    same_table n σ →
    ∃ fuel0 σ' found,
      same_table n σ' ∧
      (is_Some found ↔
       Exists (λ q0, accepting_from n s (q0, 0)) starts) ∧
      ∀ fuel, fuel0 ≤ fuel →
              parse_starts fuel s starts σ = (Return found, σ').
Proof using All.
  induction starts as [|q0 starts IH]; intros σ Hσ.
  { exists 0, σ, None. split; [done|]. split; [|done]. split.
    - by intros [? ?].
    - by intros ?%Exists_nil. }
  destruct (search_front (length (letters s)) [(q0, 0)]) with
    (rest := @nil (State * nat)) (σ := σ)
    as (fuel1 & σ1 & Hσ1 & Hcase); [|done|].
  { constructor; [simpl; lia|done]. }
  change ([(q0, 0)] ++ []) with [(q0, 0)] in Hcase.
  destruct Hcase as [(q & Hex & Hrun)|(Hnex & Hrun)].
  - exists fuel1, σ1, (Some q). split; [done|]. split.
    + split; [intros _|by eexists]. apply Exists_cons_hd.
      by apply Exists_cons in Hex as [?|?%Exists_nil].
    + intros fuel Hfuel. simpl. unfold bind.
      replace fuel with (fuel1 + (fuel - fuel1)) by lia.
      by rewrite (Hrun (fuel - fuel1)).
  - destruct (IH σ1 Hσ1) as (fuel0 & σ' & found & Hσ' & Hfound & Hrest).
    exists (fuel1 `max` fuel0), σ', found. split; [done|]. split.
    + rewrite Hfound. split; [by apply Exists_cons_tl|].
      intros [Hq0|?]%Exists_cons; [|done].
      destruct Hnex. by apply Exists_cons_hd.
    + intros fuel Hfuel. simpl. unfold bind.
      assert (parse_while fuel s [(q0, 0)] σ = (Return None, σ1)) as ->.
      { replace fuel with (fuel1 + (fuel - fuel1)) at 1 by lia.
        rewrite (Hrun (fuel - fuel1)). by destruct (fuel - fuel1). }
      apply Hrest. lia.
Qed.
End Complete.

(** X17. On an automaton without transitions on the empty symbol, whose
    rows have no repeated key and which has a start state,
    [NFA.parse_string] decides the language: given enough fuel the loop
    ends, and the call returns a state with [True] exactly when the
    automaton accepts the string. *)
Theorem nfa_parse_string_decides (n : t) (s : string) :
  ordered n → epsilon_free n → _start_states n ≠ ∅ →
  ∃ fuel0, ∀ fuel, fuel0 ≤ fuel →
    ∃ q b, (parse_string fuel s n).1 = Return (q, b) ∧
           (b = true ↔ accepts n s).
Proof.
  intros Hord Hfree Hstart.
  destruct (search_starts n s Hord Hfree (elements (_start_states n)) n)
    as (fuel0 & σ' & found & Hσ' & Hfound & Hrun);
    [apply same_table_refl|].
  assert (accepts n s ↔ is_Some found) as Hacc.
  { rewrite Hfound, Exists_exists. unfold accepts, accepting_from. simpl.
    split.
    - intros (q0 & q & Hq0 & ? & ?). exists q0.
      split; [by apply elem_of_elements|]. by exists q.
    - intros (q0 & Hq0%elem_of_elements & q & ? & ?). by exists q0, q. }
  exists fuel0. intros fuel Hfuel.
  unfold parse_string, bind at 1, get. unfold bind at 1.
  rewrite (Hrun fuel Hfuel). destruct found as [q|].
  - exists q, true. split; [done|]. rewrite Hacc. split; [by eexists|done].
  - unfold next_start_state, bind, get.
    destruct Hσ' as (_ & -> & _).
    destruct (elements (_start_states n)) as [|q0 l] eqn:Hel.
    { apply elements_empty_inv in Hel. destruct Hstart.
      by apply leibniz_equiv. }
    exists q0, false. split; [done|]. rewrite Hacc. split; [done|].
    by intros [? ?].
Qed.


Lemma init_epsilon_free alphabet : epsilon_free (init alphabet).
Proof.
  intros q r (m & S & Hm & _). simpl in Hm. by rewrite lookup_empty in Hm.
Qed.

(** Calls that add no transition on the empty symbol keep an automaton
    free of such transitions. *)
Lemma after_calls_epsilon_free calls :
  Forall (λ c, ∀ q1 q2, c ≠ AddTransition q1 q2 epsilon) calls →
  ∀ n, epsilon_free n → epsilon_free (after_calls calls n).
Proof.
  induction calls as [|c calls IH]; intros Hcalls n Hfree; simpl; [done|].
  apply Forall_cons in Hcalls as [Hc Hcalls]. apply IH; [done|].
  destruct c as [q1 q2 a|q|q|q]; simpl.
  - destruct (decide (a ∈ alphabet n ∨ a = epsilon)) as [Ha|Ha].
    + rewrite nfa_add_transition_in by done. simpl.
      intros q r [Hed|(-> & <- & ->)]%edge_added; [by apply (Hfree q r)|].
      by apply (Hc q1 q2).
    + rewrite nfa_add_transition_out; [done| |];
        intros ?; apply Ha; [by left|by right].
  - done.
  - done.
  - unfold add_start_state, bind, get, modify. by case_bool_decide.
Qed.

(** The automaton with the single state [p], a start and accept state
    with a transition to itself on [a]. *)
Lemma nfa_parse_string_decides_witness :
  let n := after_calls [AddStartState (mkState "p");
                        AddAcceptingState (mkState "p");
                        AddTransition (mkState "p") (mkState "p") "a"]
             (init {["a"]}) in
  ∃ fuel0, ∀ fuel, fuel0 ≤ fuel →
    ∃ q b, (parse_string fuel "a" n).1 = Return (q, b) ∧
           (b = true ↔ accepts n "a").
Proof.
  intros n. apply nfa_parse_string_decides.
  - apply after_calls_keeps_well_formed, nfa_init_well_formed.
  - apply after_calls_epsilon_free; [|apply init_epsilon_free].
    repeat constructor; done.
  - assert (mkState "p" ∈ _start_states n) as Hp
      by (vm_compute; reflexivity).
    intros Hempty. rewrite Hempty in Hp. by apply elem_of_empty in Hp.
Defined.

End NFAParse.

(** ** The non-deterministic automaton: the epsilon closure *)

Module NFAClosure.
Import NFA NFAFacts NFAMore.

(** The loop over the targets: the closure set gains the targets, and
    the stack those that were not in the closure set. *)
Lemma closure_visit_fold (l : list State) :
  ∀ cs stack,
    NoDup stack → (∀ x, x ∈ stack → x ∈ cs) →
    let vars := foldl closure_visit (cs, stack) l in
    (∀ x, x ∈ vars.1 ↔ x ∈ cs ∨ x ∈ l) ∧
    (∀ x, x ∈ vars.2 ↔ x ∈ stack ∨ (x ∈ l ∧ x ∉ cs)) ∧
    NoDup vars.2.
Proof.
  induction l as [|a l IH]; intros cs stack Hnodup Hsub; simpl.
  - split_and!; [|
      |done]; intros x; rewrite elem_of_nil; tauto.
  - assert (closure_visit (cs, stack) a =
            if bool_decide (a ∉ cs) then (cs ∪ {[a]}, a :: stack)
            else (cs, stack)) as -> by done.
    case_bool_decide as Ha.
    + destruct (IH (cs ∪ {[a]}) (a :: stack)) as (H1 & H2 & H3).
      * apply NoDup_cons. split; [|done]. intros ?. by apply Ha, Hsub.
      * intros x [->|?]%elem_of_cons; apply elem_of_union;
          [right; by apply elem_of_singleton|left; by apply Hsub].
      * split_and!; [| |exact H3].
        -- intros x. rewrite H1, elem_of_union, elem_of_singleton,
             elem_of_cons. tauto.
        -- intros x. rewrite H2, elem_of_union, elem_of_singleton,
             !elem_of_cons. split.
           ++ intros [[->|?]|[? Hn]]; auto.
              right. split; [by right|]. intros ?. apply Hn. by left.
           ++ intros [?|[[->|?] Hn]]; auto.
              destruct (decide (x = a)) as [->|Hne]; [by left; left|].
              right. split; [done|]. intros [?|?]; done.
    + destruct (IH cs stack Hnodup Hsub) as (H1 & H2 & H3).
      split_and!; [| |exact H3].
      * intros x. rewrite H1, elem_of_cons. split; [tauto|].
        intros [?|[->|?]]; auto.
      * intros x. rewrite H2, elem_of_cons. split; [tauto|].
        intros [?|[[->|?] Hn]]; auto. done.
Qed.

Section Closure.
Variables (n : t) (q : State).

Lemma closure_while_some fuel cs state rest tos :
  od_lookup epsilon (row n state) = Some tos →
  closure_while (S fuel) cs (state :: rest) n =
    closure_while fuel (foldl closure_visit (cs, rest) (elements tos)).1
      (foldl closure_visit (cs, rest) (elements tos)).2 n.
Proof.
  intros Hrow. simpl. unfold bind. rewrite nfa_transition_run.
  unfold row in Hrow. destruct (_transitions n !! state) as [m|];
    simpl in Hrow; [|done].
  by rewrite Hrow.
Qed.

Lemma closure_while_none fuel cs state rest :
  od_lookup epsilon (row n state) = None →
  (closure_while (S fuel) cs (state :: rest) n).1 = Raise KeyError.
Proof.
  intros Hrow. simpl. unfold bind. rewrite nfa_transition_run.
  unfold row in Hrow. destruct (_transitions n !! state) as [m|];
    simpl in Hrow; [|done].
  by rewrite Hrow.
Qed.

(** The invariant over one iteration of the search. *)
Lemma closure_step cs state rest processed tos :
  closure_inv n q cs (state :: rest) processed →
  od_lookup epsilon (row n state) = Some tos →
  (state ∉ processed) ∧
  closure_inv n q (foldl closure_visit (cs, rest) (elements tos)).1
    (foldl closure_visit (cs, rest) (elements tos)).2
    (processed ∪ {[state]}).
Proof.
  intros [] Hrow.
  assert (state ∉ processed) as Hnp by (apply ci_disjoint0; by left).
  split; [done|].
  apply NoDup_cons in ci_nodup0 as [Hnin Hnodup].
  destruct (closure_visit_fold (elements tos) cs rest) as (H1 & H2 & H3);
    [done|intros x ?; apply ci_split0; left; by right|].
  assert (∀ y, edge n state epsilon y ↔ y ∈ tos) as Hedge.
  { intros y. rewrite edge_row, Hrow. split.
    - by intros (? & [= <-] & ?).
    - intros ?. by exists tos. }
  assert (state ∈ cs) as Hstate by (apply ci_split0; left; by left).
  split; simpl.
  - apply H1. by left.
  - done.
  - intros x. rewrite H1, H2, elem_of_union, elem_of_singleton,
      elem_of_elements.
    pose proof (ci_split0 x) as Hx. rewrite elem_of_cons in Hx.
    destruct (decide (x ∈ cs)); tauto.
  - intros x [?|[Hx%elem_of_elements Hn]]%H2
      [?| ->%elem_of_singleton]%elem_of_union.
    + apply (ci_disjoint0 x); [by right|done].
    + done.
    + apply Hn, ci_split0. by right.
    + done.
  - intros x [?|Hx%elem_of_elements]%H1; [by apply ci_reachable0|].
    apply rtc_r with state; [by apply ci_reachable0|]. by apply Hedge.
  - intros x y [?| ->%elem_of_singleton]%elem_of_union Hxy; apply H1.
    + left. by apply (ci_closed0 x).
    + right. by apply elem_of_elements, Hedge.
  - intros x [?| ->%elem_of_singleton]%elem_of_union.
    + by apply ci_rows0.
    + by rewrite Hrow.
Qed.

Lemma closure_initial : closure_inv n q {[q]} [q] ∅.
Proof.
  split.
  - by apply elem_of_singleton.
  - apply NoDup_singleton.
  - intros x. rewrite elem_of_singleton, list_elem_of_singleton,
      elem_of_empty. tauto.
  - intros x _. apply not_elem_of_empty.
  - intros x ->%elem_of_singleton. apply rtc_refl.
  - by intros x y []%elem_of_empty.
  - by intros x []%elem_of_empty.
Qed.

(** Once the stack is empty the closure set holds the reachable
    states. *)
Lemma closure_final C processed :
  closure_inv n q C [] processed →
  (∀ x, x ∈ C ↔ epsilon_reachable n q x) ∧
  (∀ x, x ∈ C → is_Some (od_lookup epsilon (row n x))).
Proof.
  intros [].
  assert (∀ x, x ∈ C → x ∈ processed) as Hproc.
  { by intros x [[]%elem_of_nil|?]%ci_split0. }
  split.
  - intros x. split; [by apply ci_reachable0|].
    unfold epsilon_reachable. revert x. apply rtc_ind_r; [done|].
    intros y z _ Hyz Hy. apply (ci_closed0 y); [by apply Hproc|done].
  - intros x Hx. by apply ci_rows0, Hproc.
Qed.

Lemma closure_while_partial fuel :
  ∀ cs stack processed C n',
    closure_inv n q cs stack processed →
    closure_while fuel cs stack n = (Return C, n') →
    n' = n ∧ ∃ processed', closure_inv n q C [] processed'.
Proof.
  induction fuel as [|fuel IH]; intros cs stack processed C n' Hinv.
  - destruct stack as [|state rest]; simpl; [|done].
    intros [= <- <-]. split; [done|]. by exists processed.
  - destruct stack as [|state rest].
    { simpl. intros [= <- <-]. split; [done|]. by exists processed. }
    destruct (od_lookup epsilon (row n state)) as [tos|] eqn:Hrow.
    + rewrite (closure_while_some _ _ _ _ tos Hrow).
      destruct (closure_step cs state rest processed tos Hinv Hrow)
        as [_ Hinv'].
      by apply IH with (processed := processed ∪ {[state]}).
    + intros Hrun. pose proof (closure_while_none fuel cs state rest Hrow)
        as Hraise. by rewrite Hrun in Hraise.
Qed.

Lemma closure_grow (U : gset State) cs state rest processed :
  (∀ x, epsilon_reachable n q x → x ∈ U) →
  closure_inv n q cs (state :: rest) processed →
  epsilon_reachable n q state ∧
  size (processed ∪ {[state]}) = S (size processed) ∧
  size processed < size U.
Proof.
  intros HU Hinv. pose proof Hinv as [].
  assert (state ∈ cs) as Hstate by (apply ci_split0; left; by left).
  assert (state ∉ processed) as Hnp by (apply ci_disjoint0; by left).
  split; [by apply ci_reachable0|].
  assert (size (processed ∪ {[state]}) = S (size processed)) as Hsize.
  { rewrite size_union, size_singleton; [lia|].
    intros x Hx ->%elem_of_singleton. done. }
  split; [done|].
  assert (processed ∪ {[state]} ⊆ U) as Hsub.
  { intros x [Hx| ->%elem_of_singleton]%elem_of_union; apply HU,
      ci_reachable0; [|done]. apply ci_split0. by right. }
  apply subseteq_size in Hsub. lia.
Qed.

Lemma closure_while_total (U : gset State) :
  (∀ x, epsilon_reachable n q x → x ∈ U) →
  (∀ x, epsilon_reachable n q x →
        is_Some (od_lookup epsilon (row n x))) →
  ∀ fuel cs stack processed,
    closure_inv n q cs stack processed →
    size U ≤ size processed + fuel →
    ∃ C processed',
      closure_while fuel cs stack n = (Return C, n) ∧
      closure_inv n q C [] processed'.
Proof.
  intros HU Hrows.
  induction fuel as [|fuel IH]; intros cs stack processed Hinv Hsize.
  - destruct stack as [|state rest]; [by exists cs, processed|].
    destruct (closure_grow U _ _ _ _ HU Hinv) as (_ & _ & ?). lia.
  - destruct stack as [|state rest]; [by exists cs, processed|].
    destruct (closure_grow U _ _ _ _ HU Hinv) as (Hreach & Hsz & _).
    destruct (Hrows state Hreach) as [tos Hrow].
    rewrite (closure_while_some _ _ _ _ tos Hrow).
    destruct (closure_step cs state rest processed tos Hinv Hrow)
      as [_ Hinv'].
    apply IH with (processed := processed ∪ {[state]}); [done|lia].
Qed.

(** With enough fuel the search ends: it returns, or it raises
    [KeyError]. *)
Lemma closure_while_ends (U : gset State) :
  (∀ x, epsilon_reachable n q x → x ∈ U) →
  ∀ fuel cs stack processed,
    closure_inv n q cs stack processed →
    size U ≤ size processed + fuel →
    (∃ C, closure_while fuel cs stack n = (Return C, n)) ∨
    (closure_while fuel cs stack n).1 = Raise KeyError.
Proof.
  intros HU.
  induction fuel as [|fuel IH]; intros cs stack processed Hinv Hsize.
  - destruct stack as [|state rest]; [left; by exists cs|].
    destruct (closure_grow U _ _ _ _ HU Hinv) as (_ & _ & ?). lia.
  - destruct stack as [|state rest]; [left; by exists cs|].
    destruct (closure_grow U _ _ _ _ HU Hinv) as (_ & Hsz & _).
    destruct (od_lookup epsilon (row n state)) as [tos|] eqn:Hrow.
    + rewrite (closure_while_some _ _ _ _ tos Hrow).
      destruct (closure_step cs state rest processed tos Hinv Hrow)
        as [_ Hinv'].
      apply IH with (processed := processed ∪ {[state]}); [done|lia].
    + right. by apply closure_while_none.
Qed.

Lemma edge_table_target x a y : edge n x a y → y ∈ table_targets n.
Proof.
  intros (m & tos & Hm & Htos & Hy). unfold table_targets.
  apply elem_of_union_list. exists (⋃ m.*2). split.
  - apply list_elem_of_fmap. exists m. split; [done|].
    apply list_elem_of_fmap. exists (x, m). split; [done|].
    by apply elem_of_map_to_list.
  - apply elem_of_union_list. exists tos. split; [|done].
    apply list_elem_of_fmap. exists (a, tos). split; [done|].
    by apply NFAParse.od_lookup_some_elem.
Qed.

Lemma reachable_table_target x :
  epsilon_reachable n q x → x ∈ {[q]} ∪ table_targets n.
Proof.
  intros Hx. apply elem_of_union.
  apply rtc_inv_r in Hx as [->|(y & _ & Hyx)].
  - left. by apply elem_of_singleton.
  - right. by apply edge_table_target in Hyx.
Qed.

Lemma epsilon_closure_ends fuel :
  size ({[q]} ∪ table_targets n) ≤ fuel →
  (∃ C, _epsilon_closure fuel q n = (Return C, n)) ∨
  (_epsilon_closure fuel q n).1 = Raise KeyError.
Proof.
  intros Hfuel.
  apply (closure_while_ends ({[q]} ∪ table_targets n)
           reachable_table_target fuel {[q]} [q] ∅);
    [apply closure_initial|rewrite size_empty; lia].
Qed.
End Closure.

(** X18. Whenever [_epsilon_closure(nfa, q)] returns, it has left the
    automaton as it was, the set that it returns is exactly the set of
    the states reachable from [q] along transitions on the empty symbol,
    and each of these states has a row entry for the empty symbol. *)
Theorem epsilon_closure_partial (n : t) (q : State) (fuel : nat)
    (C : gset State) (n' : t) :
  _epsilon_closure fuel q n = (Return C, n') →
  n' = n ∧
  (∀ x, x ∈ C ↔ epsilon_reachable n q x) ∧
  (∀ x, x ∈ C → is_Some (od_lookup epsilon (row n x))).
Proof.
  intros Hrun.
  destruct (closure_while_partial n q fuel {[q]} [q] ∅ C n')
    as (-> & processed & Hinv); [apply closure_initial|done|].
  split; [done|]. by apply closure_final with processed.
Qed.

(** X19. When every state reachable from [q] along transitions on the
    empty symbol has a row entry for the empty symbol, and [U] holds
    these states, [_epsilon_closure(nfa, q)] returns within [|U|]
    iterations, and it returns exactly the set of these states. *)
Theorem epsilon_closure_total (n : t) (q : State) (U : gset State)
    (fuel : nat) :
  (∀ x, epsilon_reachable n q x → x ∈ U) →
  (∀ x, epsilon_reachable n q x →
        is_Some (od_lookup epsilon (row n x))) →
  size U ≤ fuel →
  ∃ C, _epsilon_closure fuel q n = (Return C, n) ∧
       ∀ x, x ∈ C ↔ epsilon_reachable n q x.
Proof.
  intros HU Hrows Hfuel.
  destruct (closure_while_total n q U HU Hrows fuel {[q]} [q] ∅)
    as (C & processed & Hrun & Hinv);
    [apply closure_initial|rewrite size_empty; lia|].
  exists C. split; [done|]. by apply (closure_final n q C processed).
Qed.

Lemma looping_row :
  od_lookup epsilon (row looping (mkState "p")) = Some {[mkState "p"]}.
Proof. vm_compute. reflexivity. Qed.

Lemma looping_reachable (x : State) :
  epsilon_reachable looping (mkState "p") x → x = mkState "p".
Proof.
  unfold epsilon_reachable. revert x. apply rtc_ind_r; [done|].
  intros y z _ Hyz ->. apply edge_row in Hyz as (tos & Hrow & Hz).
  rewrite looping_row in Hrow. injection Hrow as <-.
  by apply elem_of_singleton in Hz.
Qed.

Lemma epsilon_closure_partial_witness :
  _epsilon_closure 1 (mkState "p") looping
    = (Return {[mkState "p"]}, looping) ∧
  (looping = looping ∧
   (∀ x, x ∈ ({[mkState "p"]} : gset State) ↔
         epsilon_reachable looping (mkState "p") x) ∧
   (∀ x, x ∈ ({[mkState "p"]} : gset State) →
         is_Some (od_lookup epsilon (row looping x)))).
Proof.
  assert (_epsilon_closure 1 (mkState "p") looping
            = (Return {[mkState "p"]}, looping)) as Hrun
    by (vm_compute; reflexivity).
  split; [exact Hrun|].
  exact (epsilon_closure_partial looping (mkState "p") 1
           {[mkState "p"]} looping Hrun).
Defined.

Lemma epsilon_closure_total_witness :
  ∃ C, _epsilon_closure 1 (mkState "p") looping = (Return C, looping) ∧
       ∀ x, x ∈ C ↔ epsilon_reachable looping (mkState "p") x.
Proof.
  apply (epsilon_closure_total looping (mkState "p") {[mkState "p"]} 1).
  - intros x ->%looping_reachable. by apply elem_of_singleton.
  - intros x ->%looping_reachable. by rewrite looping_row.
  - by rewrite size_singleton.
Defined.

End NFAClosure.

(** ** The non-deterministic automaton: the subset construction *)

Module NFASubset.
Import NFA NFAFacts NFAMore NFAClosure.

Lemma combinations_spec {A} (l : list A) :
  ∀ r x, x ∈ combinations l r ↔ sublist x l ∧ length x = r.
Proof.
  induction l as [|a l IH]; intros [|r] x; simpl.
  - rewrite list_elem_of_singleton, sublist_nil_r. split.
    + by intros ->.
    + by intros [-> _].
  - rewrite elem_of_nil, sublist_nil_r. split; [done|].
    by intros [-> ?].
  - rewrite list_elem_of_singleton. split.
    + intros ->. split; [apply sublist_nil_l|done].
    + intros [_ Hlen]. by destruct x.
  - rewrite elem_of_app, list_elem_of_fmap, sublist_cons_r. split.
    + intros [(y & -> & [Hy Hlen]%IH)|[Hx Hlen]%IH].
      * split; [right; by exists y|]. simpl. by rewrite Hlen.
      * split; [by left|done].
    + intros [[Hx|(y & -> & Hy)] Hlen].
      * right. by apply IH.
      * left. exists y. split; [done|]. apply IH. split; [done|].
        simpl in Hlen. lia.
Qed.

(** X20. [_power_set(q)] yields exactly the tuples that keep some of
    the elements of [q], in the order of [q]: a tuple is among those
    yielded if and only if it is a subsequence of [q]. *)
Theorem power_set_spec (q x : list State) :
  x ∈ _power_set q ↔ sublist x q.
Proof.
  unfold _power_set. rewrite list_elem_of_bind. split.
  - by intros (r & [? _]%combinations_spec & _).
  - intros Hx. exists (length x). split; [by apply combinations_spec|].
    apply elem_of_seq. apply sublist_length in Hx. lia.
Qed.

Lemma add_fresh_start_run n :
  ∃ cpy, add_fresh_start n = (Return tt, cpy) ∧
         _start_states cpy = {[mkState "__q0__"]} ∧
         alphabet cpy = alphabet n.
Proof.
  assert (∃ cpy, add_fresh_start n = (Return tt, cpy) ∧
                 _start_states cpy = {[mkState "__q0__"]})
    as (cpy & Hrun & Hstart).
  { unfold add_fresh_start, bind, modify, get.
    destruct (for_each_invariant (λ _ _ _, True)
                (λ q (_ : unit),
                   add_transition (mkState "__q0__") q epsilon)
                (elements (_start_states
                   (set_states (λ Q, Q ∪ {[mkState "__q0__"]}) n))))
      with (b := tt) (σ := set_states (λ Q, Q ∪ {[mkState "__q0__"]}) n)
      as ([] & σ' & Hloop & _); [|done|].
    - intros _ x [] σ _ _. exists tt. eexists. split; [|done].
      apply nfa_add_transition_in. by right.
    - rewrite Hloop. by eexists. }
  exists cpy. split_and!; [done..|].
  pose proof (add_fresh_start_alphabet n) as Hal.
  by rewrite Hrun in Hal.
Qed.

Lemma to_dfa_body_raises n rest fuel :
  alphabet n ≠ ∅ →
  size (_start_states n ∪ table_targets n) ≤ fuel →
  (to_dfa_body fuel ([] :: rest) n).1 =
    Raise (if bool_decide (_start_states n = ∅) then StopIteration
           else KeyError).
Proof.
  intros Hne Hfuel. unfold to_dfa_body.
  unfold bind at 1, next_start_state, bind at 1, get.
  destruct (elements (_start_states n)) as [|q0 l] eqn:Hel.
  { apply elements_empty_inv, leibniz_equiv in Hel.
    by rewrite bool_decide_eq_true_2. }
  assert (q0 ∈ _start_states n) as Hq0.
  { apply elem_of_elements. rewrite Hel. by left. }
  rewrite bool_decide_eq_false_2.
  2:{ intros Hempty. rewrite Hempty in Hq0. by apply elem_of_empty in Hq0. }
  cbn [ret fst snd]. unfold bind at 1.
  destruct (epsilon_closure_ends n q0 fuel) as [[C Hrun]|Hrun].
  - etrans; [|exact Hfuel]. apply subseteq_size.
    intros x [->%elem_of_singleton|?]%elem_of_union; apply elem_of_union;
      [by left|by right].
  - rewrite Hrun. unfold bind at 1.
    pose proof (subset_rows_raise fuel rest n Hne) as Hrows.
    destruct (for_each ([] :: rest) (subset_row fuel) (∅, ∅) n)
      as [[vars|e|] n2]; cbn [fst snd] in *; [done| |done].
    by injection Hrows as ->.
  - destruct (_epsilon_closure fuel q0 n) as [[C|e|] n1];
      cbn [fst snd] in *; [done| |done].
    by injection Hrun as ->.
Qed.

(** X21. On an automaton whose alphabet is not empty [to_dfa] returns
    no automaton: it raises [StopIteration] when there is no start
    state, and [KeyError] otherwise (from the epsilon closure of the
    start state or, after it, from the first assignment
    [transitions[r][a] = set()]). *)
Theorem to_dfa_always_raises (n : t) :
  alphabet n ≠ ∅ →
  ∃ fuel0, ∀ fuel, fuel0 ≤ fuel →
    (to_dfa fuel n).1 =
      Raise (if bool_decide (_start_states n = ∅) then StopIteration
             else KeyError).
Proof.
  intros Hne. unfold to_dfa.
  destruct (power_set_head (elements (_states n))) as [rest ->].
  case_bool_decide as Hsize.
  - destruct (add_fresh_start_run n) as (cpy & Hrun & Hstart & Hal).
    exists (size (_start_states cpy ∪ table_targets cpy)).
    intros fuel Hfuel. cbn [fst]. unfold bind at 1. rewrite Hrun.
    rewrite to_dfa_body_raises; [|by rewrite Hal|done].
    rewrite Hstart. rewrite !bool_decide_eq_false_2; [done| |].
    + intros Hempty. rewrite Hempty, size_empty in Hsize. lia.
    + intros Hempty.
      assert (mkState "__q0__" ∈ (∅ : gset State)) as Hin.
      { rewrite <- Hempty. by apply elem_of_singleton. }
      by apply elem_of_empty in Hin.
  - exists (size (_start_states n ∪ table_targets n)).
    intros fuel Hfuel. by apply to_dfa_body_raises.
Qed.

Lemma to_dfa_always_raises_witness :
  ∃ fuel0, ∀ fuel, fuel0 ≤ fuel →
    (to_dfa fuel looping).1 =
      Raise (if bool_decide (_start_states looping = ∅)
             then StopIteration else KeyError).
Proof.
  apply to_dfa_always_raises.
  assert ("a" ∈ alphabet looping) as Ha by (vm_compute; reflexivity).
  intros Hempty. rewrite Hempty in Ha. by apply elem_of_empty in Ha.
Defined.

End NFASubset.
